(** * Memory MCP server: record store, search index and tool handlers

    A shallow embedding of [main.go] (the lexical variant: a bbolt bucket
    of JSON records with a bleve index derived from it) and of the
    semantic variant (a chromem collection fed with OpenAI embeddings),
    with the properties of the persistence and retrieval engine proved
    against it.

    The Go code is a thin layer over four libraries (bbolt, bleve,
    chromem-go, go-openai).  What the program decides itself is embedded
    function by function; what a library decides is either modelled
    after its documented contract ([bolt], the container part of
    [bleve] and [chromem], the naming of index fields after the json
    tags of [Memory]) or left as a parameter (the JSON codec, the
    analyser and the scoring of the index, the vector arithmetic).
    Every library call that performs I/O takes the outcome of that I/O
    as an argument, so that each failure path of the source can be
    taken; so does every order a library leaves open. *)

From Stdlib Require Import ZArith QArith Sorted.
From stdpp Require Import base option list strings gmap pretty.

Local Open Scope Z_scope.

(** ** Go values *)

(** An [error] is identified with its message. *)
Definition error := string.

(** [fmt.Errorf(prefix + ": %w", err)]. *)
Definition Errorf (prefix : string) (err : error) : error :=
  prefix +:+ ": " +:+ err.

(** [int64] wrap-around. *)
Definition wrap64 (z : Z) : Z := (z + 2 ^ 63) `mod` 2 ^ 64 - 2 ^ 63.

(** A [time.Time] is the instant it denotes, in nanoseconds since the
    Unix epoch. *)
Definition Time := Z.

(** [Time.UnixNano]: the instant as an [int64]. *)
Definition UnixNano (t : Time) : Z := wrap64 t.

(** [fmt.Sprintf("mem_%d", n)]. *)
Definition Sprintf_mem (n : Z) : string := "mem_" +:+ pretty n.

(** A decoded JSON value, as found in [request.Params.Arguments]
    (a [map[string]interface{}]).  JSON numbers decode to [float64];
    every finite [float64] is a rational. *)
#[local] Unset Elimination Schemes.
Inductive Value :=
| VNil
| VBool (b : bool)
| VNumber (f : Q)
| VString (s : string)
| VArray (l : list Value)
| VObject (m : list (string * Value)).
#[local] Set Elimination Schemes.

(** The type assertion [v.(string)] on a map lookup: [ok] is false for
    an absent key (nil interface) and for any value that is not a
    string. *)
Definition assert_string (v : option Value) : option string :=
  match v with
  | Some (VString s) => Some s
  | _ => None
  end.

(** The type assertion [v.([]interface{})]. *)
Definition assert_array (v : option Value) : option (list Value) :=
  match v with
  | Some (VArray l) => Some l
  | _ => None
  end.

(** The type assertion [v.(float64)]. *)
Definition assert_float64 (v : option Value) : option Q :=
  match v with
  | Some (VNumber f) => Some f
  | _ => None
  end.

(** [int(f)] for a [float64]: truncation toward zero.  A value that
    does not fit the 64 bits of [int] is not kept; the language leaves
    the result to the implementation, and the conversion then yields
    the least [int64], as it does on amd64. *)
Definition int_of_float64 (f : Q) : Z :=
  let t := Z.quot (Qnum f) (Zpos (Qden f)) in
  if decide (-2 ^ 63 ≤ t < 2 ^ 63) then t else -2 ^ 63.

Definition newline : string := String (Ascii.ascii_of_nat 10) "".

(** [mcp.CallToolResult], reduced to its text and its error flag. *)
Record CallToolResult := {
  Text : string;
  IsError : bool
}.

Definition NewToolResultText (s : string) : CallToolResult :=
  {| Text := s; IsError := false |}.

Definition NewToolResultError (s : string) : CallToolResult :=
  {| Text := s; IsError := true |}.

(** ** The record

    The struct tags of the source name the fields "id", "content",
    "type", "tags", "created_at" and "updated_at" in JSON; see
    [json_text_fields] for where that matters. *)

Record Memory := {
  ID : string;
  Content : string;
  Type_ : string;
  Tags : list string;
  CreatedAt : Time;
  UpdatedAt : Time
}.

(** ** Ranking

    Both indexes return their matches in descending score order.
    [insert_desc] puts an element in front of the first element whose
    score is not larger, so that [sort_desc] keeps elements of equal
    score in their order of arrival. *)
Fixpoint insert_desc {A} (score : A → Q) (x : A) (l : list A) : list A :=
  match l with
  | [] => [x]
  | y :: l' =>
      if Qle_bool (score y) (score x) then x :: y :: l'
      else y :: insert_desc score x l'
  end.

Definition sort_desc {A} (score : A → Q) (l : list A) : list A :=
  foldr (insert_desc score) [] l.

(** A computation that returns or panics. *)
Inductive Outcome (A : Type) :=
| Return (a : A)
| Panic (msg : string).
Arguments Return {A} a.
Arguments Panic {A} msg.

(** ** bbolt: one bucket of a key/value file

    A bucket is a B+tree: keys are unique and iteration is in
    byte-lexicographic key order.  It is kept as an association list
    ordered by [String.compare]. *)
Module bolt.

Abbreviation Bucket V := (list (string * V)) (only parsing).

Definition MaxKeySize : Z := 32768.

Definition ErrKeyRequired : error := "key required".
Definition ErrKeyTooLarge : error := "key too large".

(** [Bucket.Get]: nil ([None]) if the key does not exist. *)
Fixpoint Get {V} (b : Bucket V) (key : string) : option V :=
  match b with
  | [] => None
  | (k, v) :: b' => if String.eqb key k then Some v else Get b' key
  end.

Fixpoint insert_key {V} (key : string) (value : V) (b : Bucket V) : Bucket V :=
  match b with
  | [] => [(key, value)]
  | (k, v) :: b' =>
      match String.compare key k with
      | Eq => (key, value) :: b'
      | Lt => (key, value) :: (k, v) :: b'
      | Gt => (k, v) :: insert_key key value b'
      end
  end.

(** [Bucket.Put]: the key must be non-empty and at most [MaxKeySize]
    bytes long; an existing value is overwritten.  (The library also
    refuses a value above 2^31 - 2 bytes; values are abstract here and
    that refusal is not modelled.) *)
Definition Put {V} (b : Bucket V) (key : string) (value : V) : Bucket V + error :=
  if decide (String.length key = 0%nat) then inr ErrKeyRequired
  else if decide (MaxKeySize < Z.of_nat (String.length key)) then inr ErrKeyTooLarge
  else inl (insert_key key value b).

(** [Bucket.Delete]: "If the key does not exist then nothing is done
    and a nil error is returned."  In a writable transaction on a
    bucket without nested buckets it has no failure. *)
Definition Delete {V} (b : Bucket V) (key : string) : Bucket V :=
  filter (λ kv, kv.1 ≠ key) b.

(** [Bucket.ForEach]: calls [fn] on every pair in key order and stops
    at the first error. *)
Fixpoint ForEach {V S} (b : Bucket V) (fn : S → string → V → S + error) (s : S)
  : S + error :=
  match b with
  | [] => inl s
  | (k, v) :: b' =>
      match fn s k v with
      | inl s' => ForEach b' fn s'
      | inr err => inr err
      end
  end.

(** [DB.Update]: runs [fn] in a read-write transaction.  An error from
    [fn] rolls the transaction back; otherwise the transaction is
    committed, which can fail too ([io]); the bucket changes only when
    the commit succeeds. *)
Definition Update {V} (io : option error) (b : Bucket V)
    (fn : Bucket V → Bucket V + error) : Bucket V + error :=
  match fn b with
  | inr err => inr err
  | inl b' =>
      match io with
      | Some err => inr err
      | None => inl b'
      end
  end.

End bolt.

(** ** bleve: the search index

    The container part of the index (documents by id, upsert, removal,
    top-[Size] retrieval in descending score order) is modelled after
    the library's contract.  What a document looks like to a query is
    decided by the index mapping, which is library configuration
    ([bleve.NewIndexMapping()] for a new index, the stored mapping for
    an opened one) and is therefore carried by the index as data:
    - [terms field d] are the terms indexed for document [d] under the
      field named [field];
    - [analyze field text] are the terms a match query on [field]
      looks for, given its input text;
    - [scoring q ds d] is the relevance of [d] for [q] in an index
      holding [ds]. *)
Module bleve.

#[local] Unset Elimination Schemes.
Inductive Query :=
| MatchQuery (match_ : string) (field : string)
| TermQuery (term : string) (field : string)
| ConjunctionQuery (conjuncts : list Query)
| MatchAllQuery.
#[local] Set Elimination Schemes.

Record IndexMapping := {
  terms : string → Memory → list string;
  analyze : string → string → list string;
  scoring : Query → list Memory → Memory → Q
}.

(** Documents are kept in internal (document number) order: an update
    retires the old document and appends the new one. *)
Record Index := {
  mapping : IndexMapping;
  docs : list (string * Memory)
}.

Record SearchRequest := {
  Query_ : Query;
  Size : nat;
  From : nat
}.

(** [bleve.NewSearchRequest]: ten results from the first on. *)
Definition NewSearchRequest (q : Query) : SearchRequest :=
  {| Query_ := q; Size := 10; From := 0 |}.

Record DocumentMatch := {
  hit_ID : string;
  Score : Q
}.

Record SearchResult := {
  Hits : list DocumentMatch;
  Total : nat
}.

Definition ErrorEmptyID : error := "document ID cannot be empty".

Definition New (m : IndexMapping) : Index := {| mapping := m; docs := [] |}.

(** [Index.Index(id, data)]: indexes [data] under [id], replacing any
    document already stored under that id. *)
Definition Index_ (io : option error) (i : Index) (id : string) (data : Memory)
  : Index + error :=
  if decide (id = "") then inr ErrorEmptyID
  else match io with
       | Some err => inr err
       | None =>
           inl {| mapping := mapping i;
                  docs := filter (λ d, d.1 ≠ id) (docs i) ++ [(id, data)] |}
       end.

(** [Index.Delete(id)]: removing an id the index does not hold is not
    an error. *)
Definition Delete (io : option error) (i : Index) (id : string) : Index + error :=
  if decide (id = "") then inr ErrorEmptyID
  else match io with
       | Some err => inr err
       | None =>
           inl {| mapping := mapping i;
                  docs := filter (λ d, d.1 ≠ id) (docs i) |}
       end.

(** Whether a document satisfies a query.  A match query asks for one
    of the analysed terms of its text (operator "or"), a term query for
    the exact term, a conjunction for all of its conjuncts. *)
Fixpoint matches (m : IndexMapping) (q : Query) (d : Memory) : bool :=
  match q with
  | MatchQuery text field =>
      existsb (λ t, bool_decide (t ∈ terms m field d)) (analyze m field text)
  | TermQuery term field => bool_decide (term ∈ terms m field d)
  | ConjunctionQuery qs => forallb (λ q', matches m q' d) qs
  | MatchAllQuery => true
  end.

(** Descending score.  The index does not fix the order of hits of
    equal score, which varies from one search to the next; [tie] is the
    order it happens to take: of two hits of equal score the one with
    the smaller [tie] comes first (and the one with the smaller
    document number where [tie] agrees as well). *)
Definition rank (tie : string → Q) (l : list DocumentMatch)
  : list DocumentMatch :=
  sort_desc Score (sort_desc (λ h, - tie (hit_ID h))%Q l).

Definition candidates (i : Index) (q : Query) : list DocumentMatch :=
  map (λ d, {| hit_ID := d.1;
               Score := scoring (mapping i) q (map snd (docs i)) d.2 |})
      (filter (λ d, matches (mapping i) q d.2 = true) (docs i)).

(** [Index.Search]: the page [From, From + Size) of the ranked matches. *)
Definition Search (io : option error) (tie : string → Q) (i : Index)
    (req : SearchRequest) : SearchResult + error :=
  match io with
  | Some err => inr err
  | None =>
      let all := rank tie (candidates i (Query_ req)) in
      inl {| Hits := take (Size req) (drop (From req) all);
             Total := length all |}
  end.

End bleve.

(** *** The index of [Memory] values *)

(** The text fields of [Memory] under the names their struct tags
    ([json:"id"], [json:"content"], ...) give them.  The two
    [time.Time] fields are date fields and hold no text. *)
Definition json_text_fields (m : Memory) : list (string * list string) :=
  [("id", [ID m]); ("content", [Content m]); ("type", [Type_ m]);
   ("tags", Tags m)].

(** The texts held under the field named [field]. *)
Fixpoint field_texts (field : string) (fs : list (string * list string))
  : list string :=
  match fs with
  | [] => []
  | (name, texts) :: fs' =>
      if decide (name = field) then texts ++ field_texts field fs'
      else field_texts field fs'
  end.

(** The mapping [bleve.NewIndexMapping()] gives the index of [Memory]
    values: a field of the struct is indexed under the name of its json
    tag, and its texts are cut into terms by the default analyser; a
    match query cuts its text with the same analyser.  The analyser and
    the relevance score are parameters. *)
Definition default_mapping (analyzer : string → list string)
    (scoring : bleve.Query → list Memory → Memory → Q) : bleve.IndexMapping :=
  {| bleve.terms field d :=
       flat_map analyzer (field_texts field (json_text_fields d));
     bleve.analyze field text := analyzer text;
     bleve.scoring := scoring |}.

(** ** The lexical variant: [MemoryStore] *)

Definition memoryBucket : string := "memories".

(** Outcomes of the clock readings and of the I/O of one [Add]. *)
Record AddIO := {
  now_id : Time;
  now_created : Time;
  now_updated : Time;
  add_commit : option error;
  add_index : option error
}.

(** Outcomes of the I/O of one [Search]: the index search, the opening
    of the read transaction, and the order the index takes among hits
    of equal score. *)
Record SearchIO := {
  search_index : option error;
  search_view : option error;
  search_tie : string → Q
}.

(** Outcomes of the I/O of one [Delete]. *)
Record DeleteIO := {
  delete_commit : option error;
  delete_index : option error
}.

Section Store.

(** [encoding/json] on [Memory], over whatever the stored bytes are. *)
Variable bytes : Type.
Variable json_Marshal : Memory → bytes + error.
Variable json_Unmarshal : bytes → Memory + error.

(** [bleve.NewIndexMapping()]. *)
Variable NewIndexMapping : bleve.IndexMapping.

Record MemoryStore := {
  db : bolt.Bucket bytes;
  index : bleve.Index
}.

(** What [NewMemoryStore] finds on disk and the outcomes of its I/O:
    - [bolt_Open]: the "memories" bucket of the opened file, [None]
      when the file has no such bucket (a fresh file);
    - [bleve_Open]: the index found at [dbPath + ".bleve"] or the
      reason why it cannot be opened;
    - [bleve_New]: whether creating the index fails;
    - [index_existing k]: whether indexing the record stored under
      key [k] fails. *)
Record StartupIO := {
  bolt_Open : option (bolt.Bucket bytes) + error;
  create_bucket : option error;
  bleve_Open : bleve.Index + error;
  bleve_New : option error;
  startup_view : option error;
  index_existing : string → option error
}.

(** The callback of [b.ForEach] in [NewMemoryStore]. *)
Definition index_record (io : StartupIO) (i : bleve.Index) (k : string) (v : bytes)
  : bleve.Index + error :=
  match json_Unmarshal v with
  | inr err => inr err
  | inl memory => bleve.Index_ (index_existing io k) i (ID memory) memory
  end.

Definition NewMemoryStore (io : StartupIO) (dbPath : string) : MemoryStore + error :=
  match bolt_Open io with
  | inr err => inr (Errorf "failed to open database" err)
  | inl found =>
      match bolt.Update (create_bucket io) (default [] found) inl with
      | inr err => inr (Errorf "failed to create bucket" err)
      | inl b =>
          match bleve_Open io with
          | inl idx => inl {| db := b; index := idx |}
          | inr _ =>
              match bleve_New io with
              | Some createErr => inr (Errorf "failed to create index" createErr)
              | None =>
                  let fresh := bleve.New NewIndexMapping in
                  let indexed :=
                    match startup_view io with
                    | Some err => inr err
                    | None => bolt.ForEach b (index_record io) fresh
                    end in
                  match indexed with
                  | inr err => inr (Errorf "failed to index existing memories" err)
                  | inl idx => inl {| db := b; index := idx |}
                  end
              end
          end
      end
  end.

(** The record [Add] builds. *)
Definition new_memory (io : AddIO) (content memType : string) (tags : list string)
  : Memory :=
  {| ID := Sprintf_mem (UnixNano (now_id io));
     Content := content;
     Type_ := memType;
     Tags := tags;
     CreatedAt := now_created io;
     UpdatedAt := now_updated io |}.

(** [MemoryStore.Add]: the store after the call and its result, the
    new id or an error. *)
Definition Add (io : AddIO) (ms : MemoryStore) (content memType : string)
    (tags : list string) : MemoryStore * (string + error) :=
  let memory := new_memory io content memType tags in
  let saved :=
    bolt.Update (add_commit io) (db ms) (λ b,
      match json_Marshal memory with
      | inr err => inr err
      | inl data => bolt.Put b (ID memory) data
      end) in
  match saved with
  | inr err => (ms, inr (Errorf "failed to save memory" err))
  | inl b' =>
      match bleve.Index_ (add_index io) (index ms) (ID memory) memory with
      | inr err =>
          ({| db := b'; index := index ms |},
           inr (Errorf "failed to index memory" err))
      | inl idx' => ({| db := b'; index := idx' |}, inl (ID memory))
      end
  end.

(** The query [Search] builds from its arguments. *)
Definition build_query (queryString : string) (tags : list string) : bleve.Query :=
  let queries :=
    ((if decide (queryString ≠ "")
      then [bleve.MatchQuery queryString "Content"] else [])
     ++ map (λ tag, bleve.TermQuery tag "Tags") tags)%list in
  match queries with
  | [] => bleve.MatchAllQuery
  | [q] => q
  | _ => bleve.ConjunctionQuery queries
  end.

(** The loop of [Search] over the hits: a hit without a stored record
    and a stored record that does not decode are passed over. *)
Fixpoint hydrate (b : bolt.Bucket bytes) (hits : list bleve.DocumentMatch)
  : list Memory :=
  match hits with
  | [] => []
  | hit :: rest =>
      match bolt.Get b (bleve.hit_ID hit) with
      | None => hydrate b rest
      | Some data =>
          match json_Unmarshal data with
          | inr _ => hydrate b rest
          | inl memory => memory :: hydrate b rest
          end
      end
  end.

(** [MemoryStore.Search]: the pair [(memories, err)] it returns, or the
    error of the index search. *)
Definition Search (io : SearchIO) (ms : MemoryStore) (queryString : string)
    (tags : list string) : list Memory * option error + error :=
  let searchQuery := build_query queryString tags in
  let searchRequest :=
    {| bleve.Query_ := searchQuery;
       bleve.Size := 100;
       bleve.From := bleve.From (bleve.NewSearchRequest searchQuery) |} in
  match bleve.Search (search_index io) (search_tie io) (index ms)
          searchRequest with
  | inr err => inr (Errorf "search failed" err)
  | inl searchResult =>
      match search_view io with
      | Some err => inl ([], Some err)
      | None => inl (hydrate (db ms) (bleve.Hits searchResult), None)
      end
  end.

(** [MemoryStore.Delete]: the store after the call and the error
    returned, [None] for nil. *)
Definition Delete (io : DeleteIO) (ms : MemoryStore) (id : string)
  : MemoryStore * option error :=
  match bolt.Update (delete_commit io) (db ms) (λ b, inl (bolt.Delete b id)) with
  | inr err => (ms, Some (Errorf "failed to delete memory" err))
  | inl b' =>
      match bleve.Delete (delete_index io) (index ms) id with
      | inr err =>
          ({| db := b'; index := index ms |},
           Some (Errorf "failed to delete from index" err))
      | inl idx' => ({| db := b'; index := idx' |}, None)
      end
  end.

(** *** The tool handlers of [main] *)

(** The loop that keeps the string elements of a JSON array. *)
Fixpoint string_tags (t : list Value) : list string :=
  match t with
  | [] => []
  | VString strTag :: t' => strTag :: string_tags t'
  | _ :: t' => string_tags t'
  end.

Definition request_tags (args : gmap string Value) : list string :=
  match assert_array (args !! "tags") with
  | Some t => string_tags t
  | None => []
  end.

(** The [add_memory] handler. *)
Definition addMemoryTool (io : AddIO) (ms : MemoryStore) (args : gmap string Value)
  : MemoryStore * CallToolResult :=
  match assert_string (args !! "content") with
  | None => (ms, NewToolResultError "content must be a string")
  | Some content =>
      let memType := default "fact" (assert_string (args !! "type")) in
      let tags := request_tags args in
      match Add io ms content memType tags with
      | (ms', inr err) => (ms', NewToolResultError err)
      | (ms', inl id) =>
          (ms', NewToolResultText ("Memory stored with ID: " +:+ id))
      end
  end.

(** The [Search] call of the [search_memory] handler. *)
Definition searchTool_results (io : SearchIO) (ms : MemoryStore)
    (args : gmap string Value) : list Memory * option error + error :=
  let query := default "" (assert_string (args !! "query")) in
  Search io ms query (request_tags args).

(** [fmt.Sprintf("%v", tags)] for a [[]string]. *)
Definition Sprint_strings (l : list string) : string :=
  "[" +:+ String.concat " " l +:+ "]".

Fixpoint format_memories (i : Z) (results : list Memory) : string :=
  match results with
  | [] => ""
  | memory :: rest =>
      "[" +:+ pretty (i + 1) +:+ "] " +:+ Content memory +:+ newline
      +:+ "   Type: " +:+ Type_ memory +:+ ", Tags: "
      +:+ Sprint_strings (Tags memory) +:+ newline +:+ newline
      +:+ format_memories (i + 1) rest
  end.

(** The [search_memory] handler. *)
Definition searchTool (io : SearchIO) (ms : MemoryStore) (args : gmap string Value)
  : CallToolResult :=
  match searchTool_results io ms args with
  | inr err | inl (_, Some err) => NewToolResultError err
  | inl (results, None) =>
      let response := format_memories 0 results in
      NewToolResultText
        (if decide (response = "") then "No matching memories found."
         else response)
  end.

(** The [delete_memory] handler. *)
Definition deleteTool (io : DeleteIO) (ms : MemoryStore) (args : gmap string Value)
  : MemoryStore * CallToolResult :=
  match assert_string (args !! "id") with
  | None => (ms, NewToolResultError "id must be a string")
  | Some id =>
      match Delete io ms id with
      | (ms', Some err) => (ms', NewToolResultError err)
      | (ms', None) =>
          (ms', NewToolResultText ("Memory " +:+ id +:+ " deleted successfully"))
      end
  end.

End Store.

Arguments db {bytes} _.
Arguments bolt_Open {bytes} _.
Arguments create_bucket {bytes} _.
Arguments bleve_Open {bytes} _.
Arguments bleve_New {bytes} _.
Arguments startup_view {bytes} _.
Arguments index_existing {bytes} _ _.
Arguments index {bytes} _.
Arguments Add {bytes} json_Marshal io ms content memType tags.
Arguments hydrate {bytes} json_Unmarshal b hits.
Arguments Search {bytes} json_Unmarshal io ms queryString tags.
Arguments Delete {bytes} io ms id.
Arguments NewMemoryStore {bytes} json_Unmarshal NewIndexMapping io dbPath.
Arguments index_record {bytes} json_Unmarshal io i k v.
Arguments addMemoryTool {bytes} json_Marshal io ms args.
Arguments searchTool_results {bytes} json_Unmarshal io ms args.
Arguments searchTool {bytes} json_Unmarshal io ms args.
Arguments deleteTool {bytes} io ms args.

(** ** chromem-go: the vector collection

    A collection is a Go map from document id to document.  The
    arithmetic on embeddings is a parameter: [normalize] is what
    [AddDocument] stores for a given embedding (the vector itself when
    it is already of unit length) and [similarity] is the dot product
    of two stored vectors. *)
Module chromem.

Record Document := {
  ID : string;
  Metadata : gmap string string;
  Embedding : list Q;
  Content : string
}.

Record Result := {
  res_ID : string;
  res_Metadata : gmap string string;
  res_Embedding : list Q;
  res_Content : string;
  Similarity : Q
}.

Section Arithmetic.

Variable normalize : list Q → list Q.
Variable similarity : list Q → list Q → Q.

(** [Collection.AddDocument].  [embed] is the outcome of the
    collection's embedding function, called only for a document
    without an embedding; [persist] is the outcome of writing the
    document file, which happens after the document has entered the
    map. *)
Definition AddDocument (embed : list Q + error) (persist : option error)
    (c : gmap string Document) (doc : Document)
  : gmap string Document * option error :=
  if decide (ID doc = "") then (c, Some "document ID is empty")
  else if decide (length (Embedding doc) = 0%nat ∧ Content doc = "")
  then (c, Some "either document embedding or content must be filled")
  else
    let embedding :=
      if decide (length (Embedding doc) = 0%nat) then
        match embed with
        | inr err => inr (Errorf "couldn't create embedding of document" err)
        | inl e => inl e
        end
      else inl (normalize (Embedding doc)) in
    match embedding with
    | inr err => (c, Some err)
    | inl e =>
        let doc' := {| ID := ID doc; Metadata := Metadata doc;
                       Embedding := e; Content := Content doc |} in
        let c' := <[ID doc := doc']> c in
        match persist with
        | Some err => (c', Some (Errorf "couldn't persist document" err))
        | None => (c', None)
        end
    end.

Definition result_of (queryEmbedding : list Q) (d : Document) : Result :=
  {| res_ID := ID d; res_Metadata := Metadata d;
     res_Embedding := Embedding d; res_Content := Content d;
     Similarity := similarity queryEmbedding (Embedding d) |}.

(** [Collection.QueryEmbedding] without filters: the [nResults] most
    similar documents, most similar first.  The dot product is defined
    for vectors of the same length only.  Documents are visited in the
    order of a Go map, so that the order of results of equal similarity
    is not fixed; [tie] is the order it happens to be (smaller first). *)
Definition QueryEmbedding (tie : string → Q) (c : gmap string Document)
    (queryEmbedding : list Q) (nResults : Z) : list Result + error :=
  if decide (length queryEmbedding = 0%nat) then inr "queryEmbedding is empty"
  else if decide (nResults ≤ 0)%Z then inr "nResults must be > 0"
  else if decide (Z.of_nat (size c) < nResults)%Z
  then inr "nResults must be <= the number of documents in the collection"
  else
    let documents := (map_to_list c).*2 in
    if decide (Forall (λ d, length (Embedding d) = length queryEmbedding) documents)
    then inl (take (Z.to_nat nResults)
                (sort_desc Similarity
                   (sort_desc (λ r, - tie (res_ID r))%Q
                      (map (result_of queryEmbedding) documents))))
    else inr "couldn't get most similar docs: vectors must have the same length".

End Arithmetic.

End chromem.

(** ** The semantic variant: [MemoryServer] *)
Module Semantic.

(** Outcomes of one [add_memory] call: the reply of the embedding
    provider (one vector per input text, or an error), the clock
    reading and the outcomes inside [AddDocument]. *)
Record AddIO := {
  add_CreateEmbeddings : list (list Q) + error;
  now : Time;
  add_embed : list Q + error;
  add_persist : option error
}.

Record SearchIO := {
  search_CreateEmbeddings : list (list Q) + error;
  search_tie : string → Q
}.

Section Server.

(** The conversion [float32(v)]. *)
Variable float32 : Q → Q.
Variable normalize : list Q → list Q.
Variable similarity : list Q → list Q → Q.
(** [fmt.Sprintf("%.3f", x)]. *)
Variable Sprintf_3f : Q → string.

(** [MemoryServer.generateEmbedding], given the reply of
    [CreateEmbeddings]: [queryResponse.Data[0]] panics on an empty
    reply. *)
Definition generateEmbedding (reply : list (list Q) + error)
  : Outcome (list Q + error) :=
  match reply with
  | inr err => Return (inr (Errorf "error creating embedding" err))
  | inl [] => Panic "index out of range [0] with length 0"
  | inl (embedding :: _) => Return (inl (map float32 embedding))
  end.

(** The [add_memory] handler. *)
Definition addMemoryTool (io : AddIO) (collection : gmap string chromem.Document)
    (args : gmap string Value)
  : Outcome (gmap string chromem.Document * CallToolResult) :=
  match assert_string (args !! "content") with
  | None => Return (collection, NewToolResultError "content must be a string")
  | Some content =>
      let metadata := default "" (assert_string (args !! "metadata")) in
      match generateEmbedding (add_CreateEmbeddings io) with
      | Panic msg => Panic msg
      | Return (inr err) =>
          Return (collection,
                  NewToolResultError ("failed to generate embedding: " +:+ err))
      | Return (inl embedding) =>
          let doc :=
            {| chromem.ID := Sprintf_mem (UnixNano (now io));
               chromem.Metadata := {[ "raw_metadata" := metadata ]};
               chromem.Embedding := embedding;
               chromem.Content := content |} in
          match chromem.AddDocument normalize (add_embed io) (add_persist io)
                  collection doc with
          | (c', Some err) =>
              Return (c', NewToolResultError ("failed to add document: " +:+ err))
          | (c', None) =>
              Return (c', NewToolResultText
                            ("Memory stored with ID: " +:+ chromem.ID doc))
          end
      end
  end.

(** The result count the [search_memory] handler asks for. *)
Definition request_limit (args : gmap string Value) : Z :=
  match assert_float64 (args !! "limit") with
  | Some l => int_of_float64 l
  | None => 5
  end.

(** The [QueryEmbedding] call of the [search_memory] handler. *)
Definition searchTool_results (io : SearchIO)
    (collection : gmap string chromem.Document) (query : string)
    (args : gmap string Value) : Outcome (list chromem.Result + error) :=
  match generateEmbedding (search_CreateEmbeddings io) with
  | Panic msg => Panic msg
  | Return (inr err) =>
      Return (inr ("failed to generate query embedding: " +:+ err))
  | Return (inl queryEmbedding) =>
      match chromem.QueryEmbedding similarity (search_tie io) collection
              queryEmbedding (request_limit args) with
      | inr err => Return (inr ("search failed: " +:+ err))
      | inl results => Return (inl results)
      end
  end.

Fixpoint format_results (i : Z) (results : list chromem.Result) : string :=
  match results with
  | [] => ""
  | result :: rest =>
      "[" +:+ pretty (i + 1) +:+ "] " +:+ chromem.res_Content result
      +:+ " (similarity: " +:+ Sprintf_3f (chromem.Similarity result) +:+ ")"
      +:+ newline
      +:+ match chromem.res_Metadata result !! "raw_metadata" with
          | Some metadata =>
              if decide (metadata ≠ "")
              then "   Metadata: " +:+ metadata +:+ newline else ""
          | None => ""
          end
      +:+ newline
      +:+ format_results (i + 1) rest
  end.

(** The [search_memory] handler. *)
Definition searchTool (io : SearchIO) (collection : gmap string chromem.Document)
    (args : gmap string Value) : Outcome CallToolResult :=
  match assert_string (args !! "query") with
  | None => Return (NewToolResultError "query must be a string")
  | Some query =>
      match searchTool_results io collection query args with
      | Panic msg => Panic msg
      | Return (inr err) => Return (NewToolResultError err)
      | Return (inl results) =>
          if decide (length results = 0%nat)
          then Return (NewToolResultText "No matching memories found.")
          else
            Return (NewToolResultText
              ("Found " +:+ pretty (Z.of_nat (length results))
               +:+ " relevant memories:" +:+ newline +:+ newline
               +:+ format_results 0 results))
      end
  end.

End Server.

End Semantic.

(** ** Reference instances of the parameters

    Used to run the embedding on concrete stores. *)

(** Stored bytes seen through [encoding/json]: the encoding of a record,
    or bytes that do not decode to one. *)
Inductive stored :=
| Encoded (m : Memory)
| Malformed (raw : string).

Definition encode (m : Memory) : stored + error := inl (Encoded m).

Definition decode (v : stored) : Memory + error :=
  match v with
  | Encoded m => inl m
  | Malformed raw => inr "invalid character looking for beginning of value"
  end.

(** Number of the terms of [ts] that occur in [l]. *)
Definition overlap (ts l : list string) : Z :=
  Z.of_nat (length (filter (λ t, t ∈ l) ts)).

(** Reference analyser and score: texts are split at white space, and
    the score of a document is the number of query terms it holds. *)
Definition overlap_scoring : bleve.Query → list Memory → Memory → Q :=
  fix score q ds d :=
    match q with
    | bleve.MatchQuery text field =>
        inject_Z (overlap (String.words text) (String.words (Content d)))
    | bleve.TermQuery term field => 1%Q
    | bleve.ConjunctionQuery qs => foldr (λ q' s, score q' ds d + s)%Q 0%Q qs
    | bleve.MatchAllQuery => 1%Q
    end.

Definition words_mapping : bleve.IndexMapping :=
  default_mapping String.words overlap_scoring.

(** An [Add] at clock reading [t] without any failure. *)
Definition add_at (t : Time) : AddIO :=
  {| now_id := t; now_created := t; now_updated := t;
     add_commit := None; add_index := None |}.

(** A [Search] without any failure in which hits of equal score come
    in document number order. *)
Definition search_ok : SearchIO :=
  {| search_index := None; search_view := None; search_tie := λ _, 0%Q |}.

Definition delete_ok : DeleteIO :=
  {| delete_commit := None; delete_index := None |}.

(** A fresh store: an empty bucket and an empty index. *)
Definition empty_store : MemoryStore stored :=
  {| db := []; index := bleve.New words_mapping |}.

(** The store after a list of [Add] calls, each with content, type and
    tags, at the clock readings 1, 2, ... *)
Fixpoint add_all (t : Time) (l : list (string * string * list string))
    (ms : MemoryStore stored) : MemoryStore stored :=
  match l with
  | [] => ms
  | (content, memType, tags) :: l' =>
      add_all (t + 1) l' (Add encode (add_at t) ms content memType tags).1
  end.

(** Three records tagged {a}, {b} and {a,b}. *)
Definition three_tagged : MemoryStore stored :=
  add_all 1 [("alpha", "fact", ["a"]); ("beta", "fact", ["b"]);
             ("gamma", "fact", ["a"; "b"])] empty_store.

(** [three_tagged] with the record "mem_2" removed from the bucket
    behind the back of the index, which keeps its entry. *)
Definition dangling_store : MemoryStore stored :=
  {| db := bolt.Delete (db three_tagged) "mem_2"; index := index three_tagged |}.

(** An [Add] at clock reading [t] whose index update fails. *)
Definition add_unindexed (t : Time) (err : error) : AddIO :=
  {| now_id := t; now_created := t; now_updated := t;
     add_commit := None; add_index := Some err |}.

(** A semantic [add_memory] at clock reading [t] whose provider
    returns the vector [e]. *)
Definition embed_at (t : Time) (e : list Q) : Semantic.AddIO :=
  {| Semantic.add_CreateEmbeddings := inl [e];
     Semantic.now := t;
     Semantic.add_embed := inr "no embedding function";
     Semantic.add_persist := None |}.

(** A semantic [add_memory] whose provider call fails. *)
Definition embed_fails (t : Time) (err : error) : Semantic.AddIO :=
  {| Semantic.add_CreateEmbeddings := inr err;
     Semantic.now := t;
     Semantic.add_embed := inr "no embedding function";
     Semantic.add_persist := None |}.

(** Reference arithmetic for the semantic variant: vectors are
    compared by their dot product and stored scaled to unit length.
    [unit_length] is exact for the vectors whose length is rational,
    the only ones it is used on here. *)
Definition dot (a b : list Q) : Q :=
  foldr Qplus 0%Q (zip_with Qmult a b).

Definition unit_length (v : list Q) : list Q :=
  let square := Qred (dot v v) in
  let norm := Z.sqrt (Qnum square) # Pos.sqrt (Qden square) in
  if Qeq_bool (norm * norm) square && negb (Qeq_bool norm 0)
  then map (λ x, Qred (x / norm)) v
  else v.

Definition print_Q (x : Q) : string :=
  pretty (Qnum x) +:+ "/" +:+ pretty (Zpos (Qden x)).

(** An [add_memory] request whose "type" is a number. *)
Definition untyped_request : gmap string Value :=
  {[ "content" := VString "alpha"; "type" := VNumber 3 ]}.

(** A start on the bucket of [three_tagged] with no index to open. *)
Definition index_missing : StartupIO stored :=
  {| bolt_Open := inl (Some (db three_tagged));
     create_bucket := None;
     bleve_Open := inr "cannot open index, path does not exist";
     bleve_New := None;
     startup_view := None;
     index_existing := λ _, None |}.

(** The stores reached from a fresh one by successful [Add] calls,
    with the ids those calls returned, latest first. *)
Inductive Added {bytes} (json_Marshal : Memory → bytes + error)
  : list string → MemoryStore bytes → Prop :=
| Added_fresh (m : bleve.IndexMapping) :
    Added json_Marshal [] {| db := []; index := bleve.New m |}
| Added_Add (ids : list string) (ms ms' : MemoryStore bytes) (io : AddIO)
    (content memType : string) (tags : list string) (id : string) :
    Added json_Marshal ids ms →
    Add json_Marshal io ms content memType tags = (ms', inl id) →
    Added json_Marshal (id :: ids) ms'.

(** Five records; all of them satisfy the match-all query. *)
Definition five_records : MemoryStore stored :=
  add_all 1 [("note one", "fact", []); ("note two", "fact", []);
             ("note three", "fact", []); ("note four", "fact", []);
             ("note five", "fact", [])] empty_store.

(** A search request without text or tags that asks for two results. *)
Definition limit_two : gmap string Value :=
  {[ "limit" := VNumber 2 ]}.

(** A collection of five documents with two-dimensional embeddings of
    unit length. *)
Definition vector_doc (id : string) (e : list Q) : string * chromem.Document :=
  (id, {| chromem.ID := id; chromem.Metadata := {[ "raw_metadata" := "" ]};
          chromem.Embedding := e; chromem.Content := id |}).

Definition five_vectors : gmap string chromem.Document :=
  list_to_map [vector_doc "mem_1" [1; 0]; vector_doc "mem_2" [0; 1];
               vector_doc "mem_3" [-1; 0]; vector_doc "mem_4" [0; -1];
               vector_doc "mem_5" [1; 0]]%Q.

Definition query_vector : Semantic.SearchIO :=
  {| Semantic.search_CreateEmbeddings := inl [[1; 0]%Q];
     Semantic.search_tie := λ _, 0%Q |}.

(** The stores reached from a fresh one by [Add] and [Delete] calls
    that all succeed. *)
Inductive Operated {bytes} (json_Marshal : Memory → bytes + error)
  : MemoryStore bytes → Prop :=
| Operated_fresh (m : bleve.IndexMapping) :
    Operated json_Marshal {| db := []; index := bleve.New m |}
| Operated_Add (ms ms' : MemoryStore bytes) (io : AddIO)
    (content memType : string) (tags : list string) (id : string) :
    Operated json_Marshal ms →
    Add json_Marshal io ms content memType tags = (ms', inl id) →
    Operated json_Marshal ms'
| Operated_Delete (ms ms' : MemoryStore bytes) (io : DeleteIO) (id : string) :
    Operated json_Marshal ms →
    Delete io ms id = (ms', None) →
    Operated json_Marshal ms'.

(** A [Delete] whose index removal fails. *)
Definition delete_unindexed (err : error) : DeleteIO :=
  {| delete_commit := None; delete_index := Some err |}.

(** An [Add] whose commit fails. *)
Definition add_uncommitted (t : Time) (err : error) : AddIO :=
  {| now_id := t; now_created := t; now_updated := t;
     add_commit := Some err; add_index := None |}.

(** The bucket of [three_tagged] with a value under "mem_2" that does
    not decode. *)
Definition corrupt_store : MemoryStore stored :=
  {| db := bolt.insert_key "mem_2" (Malformed "{") (db three_tagged);
     index := index three_tagged |}.

(** A start on the bucket of [corrupt_store] with no index to open. *)
Definition index_missing_corrupt : StartupIO stored :=
  {| bolt_Open := inl (Some (db corrupt_store));
     create_bucket := None;
     bleve_Open := inr "cannot open index, path does not exist";
     bleve_New := None;
     startup_view := None;
     index_existing := λ _, None |}.

(** An [add_memory] request with a tag list that holds a number, and
    a provider reply with two vectors. *)
Definition mixed_tags_request : gmap string Value :=
  {[ "content" := VString "alpha";
     "tags" := VArray [VString "a"; VNumber 7; VString "b"] ]}.

Definition two_vectors (t : Time) : Semantic.AddIO :=
  {| Semantic.add_CreateEmbeddings := inl [[3; 4]; [0; 1]]%Q;
     Semantic.now := t;
     Semantic.add_embed := inr "no embedding function";
     Semantic.add_persist := None |}.

(** A provider that answers without any vector. *)
Definition no_vector (t : Time) : Semantic.AddIO :=
  {| Semantic.add_CreateEmbeddings := inl [];
     Semantic.now := t;
     Semantic.add_embed := inr "no embedding function";
     Semantic.add_persist := None |}.

(** * Properties *)

(** ** The bucket *)

Lemma bolt_Get_Delete_eq {V} (b : bolt.Bucket V) (key : string) :
  bolt.Get (bolt.Delete b key) key = None.
Proof.
  induction b as [|[k v] b IH]; [done|].
  unfold bolt.Delete in *. rewrite filter_cons. simpl.
  case_decide as Hk; simpl; [|done].
  destruct (String.eqb_spec key k); [congruence|done].
Qed.

Lemma bolt_Delete_absent {V} (b : bolt.Bucket V) (key : string) :
  bolt.Get b key = None → bolt.Delete b key = b.
Proof.
  induction b as [|[k v] b IH]; [done|]. simpl.
  destruct (String.eqb_spec key k) as [->|Hne]; [done|]. intros Hget.
  unfold bolt.Delete in *. rewrite filter_cons. simpl.
  case_decide; [|congruence]. by rewrite IH.
Qed.

Lemma bolt_Get_insert_key_eq {V} (b : bolt.Bucket V) (key : string) (v : V) :
  bolt.Get (bolt.insert_key key v b) key = Some v.
Proof.
  induction b as [|[k w] b IH]; simpl.
  - by rewrite String.eqb_refl.
  - destruct (String.compare key k) eqn:Hc; simpl.
    + by rewrite String.eqb_refl.
    + by rewrite String.eqb_refl.
    + destruct (String.eqb_spec key k) as [->|_]; [|done].
      pose proof (String.compare_antisym k k) as Hk.
      rewrite Hc in Hk. discriminate.
Qed.

Lemma bolt_Get_insert_key_ne {V} (b : bolt.Bucket V) (key key' : string) (v : V) :
  key ≠ key' → bolt.Get (bolt.insert_key key v b) key' = bolt.Get b key'.
Proof.
  intros Hne. induction b as [|[k w] b IH]; simpl.
  - destruct (String.eqb_spec key' key); [congruence|done].
  - destruct (String.compare key k) eqn:Hc; simpl.
    + apply String.compare_eq_iff in Hc as <-.
      by destruct (String.eqb_spec key' key); [congruence|].
    + by destruct (String.eqb_spec key' key); [congruence|].
    + by rewrite IH.
Qed.

(** ** Deletion *)

(** C1 (as amended).  For an id that the record store does not hold,
    [Delete] leaves the record store as it is, does not report the
    absence and goes on to remove the id from the index; when that
    removal succeeds the call returns nil.  In particular, deleting an
    existing record twice in a row returns nil both times. *)
Theorem Delete_absent_returns_nil {bytes} (io io' : DeleteIO)
    (ms : MemoryStore bytes) (id : string) :
  id ≠ "" →
  delete_commit io = None → delete_index io = None →
  delete_commit io' = None → delete_index io' = None →
  (bolt.Get (db ms) id = None →
     Delete io ms id =
       ({| db := db ms;
           index := {| bleve.mapping := bleve.mapping (index ms);
                       bleve.docs :=
                         filter (λ d, d.1 ≠ id) (bleve.docs (index ms)) |} |},
        None))
  ∧ (Delete io ms id).2 = None
  ∧ bolt.Get (db (Delete io ms id).1) id = None
  ∧ (Delete io' (Delete io ms id).1 id).2 = None.
Proof.
  intros Hid Hc Hi Hc' Hi'.
  assert (∀ (io0 : DeleteIO) (ms0 : MemoryStore bytes),
            delete_commit io0 = None → delete_index io0 = None →
            Delete io0 ms0 id =
              ({| db := bolt.Delete (db ms0) id;
                  index := {| bleve.mapping := bleve.mapping (index ms0);
                              bleve.docs :=
                                filter (λ d, d.1 ≠ id) (bleve.docs (index ms0)) |} |},
               None)) as Hrun.
  { intros io0 ms0 H1 H2. unfold Delete, bolt.Update, bleve.Delete.
    rewrite H1, H2. by case_decide. }
  split_and!.
  - intros Habs. rewrite Hrun by done. by rewrite bolt_Delete_absent.
  - by rewrite Hrun.
  - rewrite Hrun by done. simpl. apply bolt_Get_Delete_eq.
  - by rewrite !Hrun.
Qed.

Lemma Delete_absent_returns_nil_witness :
  bolt.Get (db three_tagged) "mem_9" = None
  ∧ db (Delete delete_ok three_tagged "mem_9").1 = db three_tagged
  ∧ (Delete delete_ok three_tagged "mem_9").2 = None
  ∧ (Delete delete_ok (Delete delete_ok three_tagged "mem_9").1 "mem_9").2 = None.
Proof.
  destruct (Delete_absent_returns_nil delete_ok delete_ok three_tagged "mem_9")
    as (Habs & Hnil & _ & Hagain); [done..|].
  split_and!; [done| |done..].
  by rewrite Habs.
Defined.

(** C1 (as stated) fails.  The record "mem_2" is in the store: deleting
    it twice in a row returns nil and nil again, not an error.  In a
    store whose index still holds "mem_2" while the bucket does not,
    [Delete] returns nil and changes the index.  And the
    [delete_memory] handler reports success for an id that was never
    stored. *)
Lemma Delete_absent_counterexample :
  is_Some (bolt.Get (db three_tagged) "mem_2")
  ∧ (Delete delete_ok three_tagged "mem_2").2 = None
  ∧ (Delete delete_ok (Delete delete_ok three_tagged "mem_2").1 "mem_2").2 = None
  ∧ bolt.Get (db dangling_store) "mem_2" = None
  ∧ (Delete delete_ok dangling_store "mem_2").2 = None
  ∧ bleve.docs (index (Delete delete_ok dangling_store "mem_2").1)
    ≠ bleve.docs (index dangling_store)
  ∧ (deleteTool delete_ok three_tagged {[ "id" := VString "mem_9" ]}).2
    = NewToolResultText "Memory mem_9 deleted successfully".
Proof.
  split_and!; try (vm_compute; done).
  - vm_compute. eauto.
Qed.

(** ** Identifiers *)

Lemma Sprintf_mem_inj (n n' : Z) : Sprintf_mem n = Sprintf_mem n' → n = n'.
Proof.
  unfold Sprintf_mem. intros H%(inj (String.app "mem_")).
  by apply (inj pretty) in H.
Qed.

Lemma pretty_N_go_length (x : N) (s : string) :
  (String.length (pretty_N_go x s)
   ≤ String.length s + N.to_nat (N.log2 x) + 1)%nat.
Proof.
  revert s. induction (N.lt_wf_0 x) as [x _ IH]; intros s.
  assert (x = 0 ∨ 0 < x < 10 ∨ 10 ≤ x)%N as [->|[[??]|?]] by lia.
  - rewrite pretty_N_go_0. lia.
  - rewrite pretty_N_go_step by done.
    rewrite N.div_small by lia. rewrite pretty_N_go_0. simpl. lia.
  - rewrite pretty_N_go_step by lia.
    etrans; [apply IH; apply N.div_lt; lia|]. simpl.
    assert (0 < x `div` 10)%N by (apply N.div_str_pos; lia).
    assert (N.log2 (2 * (x `div` 10)) ≤ N.log2 x)%N as Hle.
    { apply N.log2_le_mono.
      pose proof (N.Div0.mul_div_le x 10). lia. }
    rewrite N.log2_double in Hle by done. lia.
Qed.

Lemma pretty_Z_length (n : Z) :
  -2 ^ 63 ≤ n < 2 ^ 63 → (String.length (pretty n) ≤ 66)%nat.
Proof.
  intros Hn.
  assert (∀ p : positive, (Z.pos p ≤ 2 ^ 63)%Z →
            (String.length (pretty (N.pos p)) ≤ 65)%nat) as Hpos.
  { intros p Hp. unfold pretty, pretty_N. case_decide; [done|].
    etrans; [apply pretty_N_go_length|].
    assert (N.log2 (N.pos p) ≤ N.log2 (2 ^ 63))%N as Hle
      by (apply N.log2_le_mono; lia).
    rewrite N.log2_pow2 in Hle by lia.
    change (String.length "") with 0%nat. lia. }
  destruct n as [|p|p]; unfold pretty, pretty_Z.
  - simpl. lia.
  - change (pretty p) with (pretty (N.pos p)).
    specialize (Hpos p). lia.
  - change (String.length ("-" +:+ pretty p))
      with (S (String.length (pretty (N.pos p)))).
    specialize (Hpos p). lia.
Qed.

Lemma wrap64_range (z : Z) : -2 ^ 63 ≤ wrap64 z < 2 ^ 63.
Proof. unfold wrap64. pose proof (Z.mod_pos_bound (z + 2 ^ 63) (2 ^ 64)). lia. Qed.

(** An id made by [Add] is accepted as a key by [bolt.Put] and as a
    document id by the index. *)
Lemma Sprintf_mem_key (t : Time) :
  Sprintf_mem (UnixNano t) ≠ ""
  ∧ String.length (Sprintf_mem (UnixNano t)) ≠ 0%nat
  ∧ ¬ (bolt.MaxKeySize < Z.of_nat (String.length (Sprintf_mem (UnixNano t)))).
Proof.
  pose proof (pretty_Z_length (UnixNano t) (wrap64_range t)) as Hlen.
  unfold Sprintf_mem, bolt.MaxKeySize.
  change (String.length ("mem_" +:+ pretty (UnixNano t)))
    with (4 + String.length (pretty (UnixNano t)))%nat.
  split_and!; [done|lia|lia].
Qed.

(** What [Add] does, by the outcomes of its three fallible steps. *)
Lemma Add_unfold {bytes} (json_Marshal : Memory → bytes + error) (io : AddIO)
    (ms : MemoryStore bytes) (content memType : string) (tags : list string) :
  let memory := new_memory io content memType tags in
  Add json_Marshal io ms content memType tags =
    match json_Marshal memory with
    | inr err => (ms, inr (Errorf "failed to save memory" err))
    | inl data =>
        match add_commit io with
        | Some err => (ms, inr (Errorf "failed to save memory" err))
        | None =>
            let b' := bolt.insert_key (ID memory) data (db ms) in
            match add_index io with
            | Some err =>
                ({| db := b'; index := index ms |},
                 inr (Errorf "failed to index memory" err))
            | None =>
                ({| db := b';
                    index :=
                      {| bleve.mapping := bleve.mapping (index ms);
                         bleve.docs :=
                           filter (λ d, d.1 ≠ ID memory) (bleve.docs (index ms))
                           ++ [(ID memory, memory)] |} |},
                 inl (ID memory))
            end
        end
    end.
Proof.
  intros memory. unfold Add. fold memory.
  destruct (Sprintf_mem_key (now_id io)) as (Hne & Hlen & Hmax).
  unfold bolt.Update, bolt.Put, bleve.Index_.
  destruct (json_Marshal memory) as [data|err]; [|done].
  change (ID memory) with (Sprintf_mem (UnixNano (now_id io))).
  repeat case_decide; try done.
  by destruct (add_commit io), (add_index io).
Qed.

(** What a successful semantic [add_memory] answers. *)
Lemma Semantic_addMemoryTool_text (float32 : Q → Q) (normalize : list Q → list Q)
    (io : Semantic.AddIO) (c c' : gmap string chromem.Document)
    (args : gmap string Value) (r : CallToolResult) :
  Semantic.addMemoryTool float32 normalize io c args = Return (c', r) →
  IsError r = false →
  Text r = "Memory stored with ID: " +:+ Sprintf_mem (UnixNano (Semantic.now io)).
Proof.
  unfold Semantic.addMemoryTool. intros Hrun Hok.
  destruct (assert_string (args !! "content")); [|by simplify_eq].
  destruct (Semantic.generateEmbedding _ _) as [[e|err]|msg]; [|by simplify_eq..].
  destruct (chromem.AddDocument _ _ _ _ _) as [c'' [err|]]; by simplify_eq.
Qed.

(** C2 (as amended).  The id of a record is made of the nanosecond
    clock reading alone: two successful adds, against the same store or
    different ones, get distinct ids exactly when the readings (as
    [int64]) they take for the id differ.  The same holds of the ids
    the semantic [add_memory] handler answers with. *)
Theorem Add_ids_distinct_iff {bytes} (json_Marshal : Memory → bytes + error)
    (io1 io2 : AddIO) (ms1 ms2 : MemoryStore bytes) (c1 c2 ty1 ty2 : string)
    (tg1 tg2 : list string) (id1 id2 : string) :
  (Add json_Marshal io1 ms1 c1 ty1 tg1).2 = inl id1 →
  (Add json_Marshal io2 ms2 c2 ty2 tg2).2 = inl id2 →
  (id1 ≠ id2 ↔ UnixNano (now_id io1) ≠ UnixNano (now_id io2))
  ∧ ∀ float32 normalize (sio1 sio2 : Semantic.AddIO)
      (col1 col2 col1' col2' : gmap string chromem.Document)
      (args1 args2 : gmap string Value) (r1 r2 : CallToolResult),
      Semantic.addMemoryTool float32 normalize sio1 col1 args1 = Return (col1', r1) →
      Semantic.addMemoryTool float32 normalize sio2 col2 args2 = Return (col2', r2) →
      IsError r1 = false → IsError r2 = false →
      (Text r1 ≠ Text r2
       ↔ UnixNano (Semantic.now sio1) ≠ UnixNano (Semantic.now sio2)).
Proof.
  intros H1 H2. split.
  - assert (∀ io ms c ty tg id,
              (Add json_Marshal io ms c ty tg).2 = inl id →
              id = Sprintf_mem (UnixNano (now_id io))) as Hid.
    { intros io ms c ty tg id. rewrite Add_unfold.
      repeat case_match; simpl; intros; by simplify_eq. }
    apply Hid in H1 as ->. apply Hid in H2 as ->.
    split; [congruence|]. intros Hne Heq. by apply Sprintf_mem_inj in Heq.
  - intros ????????????  Hr1 Hr2 Hok1 Hok2.
    rewrite (Semantic_addMemoryTool_text _ _ _ _ _ _ _ Hr1 Hok1).
    rewrite (Semantic_addMemoryTool_text _ _ _ _ _ _ _ Hr2 Hok2).
    split; [congruence|]. intros Hne Heq.
    apply (inj (String.app _)) in Heq. by apply Sprintf_mem_inj in Heq.
Qed.

Lemma Add_ids_distinct_iff_witness :
  "mem_1" ≠ "mem_2" ↔ UnixNano 1 ≠ UnixNano 2.
Proof.
  apply (Add_ids_distinct_iff encode (add_at 1) (add_at 2) empty_store
           (Add encode (add_at 1) empty_store "alpha" "fact" []).1
           "alpha" "beta" "fact" "fact" [] [] "mem_1" "mem_2");
    reflexivity.
Defined.

(** C2 (as stated) fails.  Two adds in a row that read the same
    nanosecond both succeed with the id "mem_5", and the second record
    replaces the first. *)
Lemma Add_ids_counterexample :
  let first := Add encode (add_at 5) empty_store "alpha" "fact" [] in
  let second := Add encode (add_at 5) first.1 "beta" "fact" [] in
  first.2 = inl "mem_5" ∧ second.2 = inl "mem_5"
  ∧ Content <$> hydrate decode (db second.1)
                  [{| bleve.hit_ID := "mem_5"; bleve.Score := 1 |}] = ["beta"]
  ∧ length (db second.1) = 1%nat.
Proof. vm_compute. done. Qed.

(** ** Adding *)

(** C7.  When the write to the record store succeeds and the following
    index update fails, [Add] returns an error, never an id; the record
    is then stored but not indexed. *)
Theorem Add_index_failure_is_reported {bytes}
    (json_Marshal : Memory → bytes + error) (io : AddIO) (ms : MemoryStore bytes)
    (content memType : string) (tags : list string) (data : bytes) (err : error) :
  let memory := new_memory io content memType tags in
  let r := Add json_Marshal io ms content memType tags in
  json_Marshal memory = inl data →
  add_commit io = None →
  add_index io = Some err →
  r.2 = inr (Errorf "failed to index memory" err)
  ∧ bolt.Get (db r.1) (ID memory) = Some data
  ∧ index r.1 = index ms.
Proof.
  intros memory r Hdata Hcommit Hindex. subst r. rewrite Add_unfold.
  fold memory. rewrite Hdata, Hcommit, Hindex. simpl.
  split_and!; [done| |done]. apply bolt_Get_insert_key_eq.
Qed.

Lemma Add_index_failure_is_reported_witness :
  (Add encode (add_unindexed 7 "disk full") empty_store "alpha" "fact" ["a"]).2
  = inr "failed to index memory: disk full".
Proof.
  apply (Add_index_failure_is_reported encode (add_unindexed 7 "disk full")
           empty_store "alpha" "fact" ["a"]
           (Encoded (new_memory (add_unindexed 7 "disk full") "alpha" "fact" ["a"]))
           "disk full");
    reflexivity.
Defined.

(** C10.  In the lexical [add_memory] handler a "type" argument that is
    absent or not a string is not rejected: the record is built with
    type "fact" and handed to [Add], and when nothing fails in [Add]
    the call answers with the new id, with that record stored and
    indexed. *)
Theorem addMemoryTool_default_type {bytes} (json_Marshal : Memory → bytes + error)
    (io : AddIO) (ms : MemoryStore bytes) (args : gmap string Value)
    (content : string) :
  args !! "content" = Some (VString content) →
  (args !! "type" = None
   ∨ ∃ v, args !! "type" = Some v ∧ ∀ t, v ≠ VString t) →
  let memory := new_memory io content "fact" (request_tags args) in
  let r := addMemoryTool json_Marshal io ms args in
  Type_ memory = "fact"
  ∧ r.1 = (Add json_Marshal io ms content "fact" (request_tags args)).1
  ∧ ∀ data, json_Marshal memory = inl data →
      add_commit io = None → add_index io = None →
      r.2 = NewToolResultText ("Memory stored with ID: " +:+ ID memory)
      ∧ bolt.Get (db r.1) (ID memory) = Some data
      ∧ (ID memory, memory) ∈ bleve.docs (index r.1).
Proof.
  intros Hcontent Htype memory r.
  assert (assert_string (args !! "type") = None) as Hnone.
  { destruct Htype as [->|(v & -> & Hv)]; [done|].
    destruct v; try done. by destruct (Hv s). }
  assert (r = match Add json_Marshal io ms content "fact" (request_tags args) with
              | (ms', inr err) => (ms', NewToolResultError err)
              | (ms', inl id) =>
                  (ms', NewToolResultText ("Memory stored with ID: " +:+ id))
              end) as ->.
  { subst r. unfold addMemoryTool. by rewrite Hcontent, Hnone. }
  split_and!; [done|by repeat case_match|].
  intros data Hdata Hcommit Hindex. rewrite Add_unfold. fold memory.
  rewrite Hdata, Hcommit, Hindex. simpl.
  split_and!; [done|apply bolt_Get_insert_key_eq|].
  apply elem_of_app. right. by apply list_elem_of_singleton.
Qed.

Lemma addMemoryTool_default_type_witness :
  (addMemoryTool encode (add_at 4) empty_store untyped_request).2
  = NewToolResultText "Memory stored with ID: mem_4"
  ∧ bolt.Get (db (addMemoryTool encode (add_at 4) empty_store untyped_request).1)
      "mem_4"
    = Some (Encoded (new_memory (add_at 4) "alpha" "fact" [])).
Proof.
  destruct (addMemoryTool_default_type encode (add_at 4) empty_store
              untyped_request "alpha") as (_ & _ & Hrun).
  - reflexivity.
  - right. exists (VNumber 3). split; [reflexivity|done].
  - destruct (Hrun (Encoded (new_memory (add_at 4) "alpha" "fact" [])))
      as (Htext & Hget & _); [reflexivity..|].
    split; [exact Htext|exact Hget].
Defined.

(** ** Searching *)

(** The hits [Search] asks the index for: the first hundred of the
    ranked matches of the query it builds. *)
Lemma Search_unfold {bytes} (json_Unmarshal : bytes → Memory + error)
    (io : SearchIO) (ms : MemoryStore bytes) (queryString : string)
    (tags : list string) :
  Search json_Unmarshal io ms queryString tags =
    match search_index io with
    | Some err => inr (Errorf "search failed" err)
    | None =>
        match search_view io with
        | Some err => inl ([], Some err)
        | None =>
            inl (hydrate json_Unmarshal (db ms)
                   (take 100 (bleve.rank (search_tie io)
                      (bleve.candidates (index ms)
                         (build_query queryString tags)))),
                 None)
        end
    end.
Proof.
  unfold Search, bleve.Search. simpl. by destruct (search_index io).
Qed.

Lemma hydrate_app {bytes} (json_Unmarshal : bytes → Memory + error)
    (b : bolt.Bucket bytes) (l1 l2 : list bleve.DocumentMatch) :
  hydrate json_Unmarshal b (l1 ++ l2)
  = hydrate json_Unmarshal b l1 ++ hydrate json_Unmarshal b l2.
Proof.
  induction l1 as [|h l1 IH]; [done|]. simpl.
  destruct (bolt.Get b (bleve.hit_ID h)) as [data|]; [|done].
  destruct (json_Unmarshal data); [|done]. simpl. by rewrite IH.
Qed.

Lemma elem_of_hydrate {bytes} (json_Unmarshal : bytes → Memory + error)
    (b : bolt.Bucket bytes) (hits : list bleve.DocumentMatch) (m : Memory) :
  m ∈ hydrate json_Unmarshal b hits ↔
  ∃ h data, h ∈ hits ∧ bolt.Get b (bleve.hit_ID h) = Some data
            ∧ json_Unmarshal data = inl m.
Proof.
  induction hits as [|h hits IH]; simpl.
  - split; [by intros ?%elem_of_nil|]. by intros (? & ? & ?%elem_of_nil & _).
  - destruct (bolt.Get b (bleve.hit_ID h)) as [data|] eqn:Hget;
      [destruct (json_Unmarshal data) as [m'|err] eqn:Hdec|].
    + rewrite elem_of_cons, IH. split.
      * intros [->|(h' & d & ? & ? & ?)].
        -- exists h, data. split_and!; [left|..]; done.
        -- exists h', d. split_and!; [by right|done..].
      * intros (h' & d & [->|?]%elem_of_cons & Hg & Hd).
        -- left. congruence.
        -- right. eauto.
    + rewrite IH. split.
      * intros (h' & d & ? & ? & ?). exists h', d. split_and!; [by right|done..].
      * intros (h' & d & [->|?]%elem_of_cons & Hg & Hd); [congruence|eauto].
    + rewrite IH. split.
      * intros (h' & d & ? & ? & ?). exists h', d. split_and!; [by right|done..].
      * intros (h' & d & [->|?]%elem_of_cons & Hg & Hd); [congruence|eauto].
Qed.

(** C5.  A hit whose id has no record in the bucket is passed over by
    the hydration loop: it contributes nothing to the result, the other
    hits are hydrated as if it had not been there, every record
    returned is the stored record of some hit, and [Search] returns no
    error. *)
Theorem Search_skips_dangling {bytes} (json_Unmarshal : bytes → Memory + error)
    (io : SearchIO) (ms : MemoryStore bytes) (queryString : string)
    (tags : list string) :
  search_index io = None → search_view io = None →
  let hits :=
    take 100 (bleve.rank (search_tie io)
                (bleve.candidates (index ms)
                   (build_query queryString tags))) in
  Search json_Unmarshal io ms queryString tags
  = inl (hydrate json_Unmarshal (db ms) hits, None)
  ∧ (∀ before hit after,
       hits = before ++ hit :: after →
       bolt.Get (db ms) (bleve.hit_ID hit) = None →
       hydrate json_Unmarshal (db ms) hits
       = hydrate json_Unmarshal (db ms) (before ++ after))
  ∧ (∀ m, m ∈ hydrate json_Unmarshal (db ms) hits →
       ∃ hit data, hit ∈ hits
         ∧ bolt.Get (db ms) (bleve.hit_ID hit) = Some data
         ∧ json_Unmarshal data = inl m).
Proof.
  intros Hindex Hview hits. split_and!.
  - rewrite Search_unfold. by rewrite Hindex, Hview.
  - intros before hit after -> Hget.
    rewrite !hydrate_app. simpl. by rewrite Hget.
  - intros m. by rewrite elem_of_hydrate.
Qed.

Lemma Search_skips_dangling_witness :
  bolt.Get (db dangling_store) "mem_2" = None
  ∧ "mem_2" ∈ (bleve.docs (index dangling_store)).*1
  ∧ ∃ found, Search decode search_ok dangling_store "" [] = inl (found, None)
      ∧ ID <$> found = ["mem_1"; "mem_3"].
Proof.
  split_and!; [reflexivity|vm_compute; set_solver|].
  destruct (Search_skips_dangling decode search_ok dangling_store "" [])
    as (Hrun & _ & _); [reflexivity..|].
  eexists. split; [exact Hrun|]. reflexivity.
Defined.

(** ** Start-up *)

Lemma bleve_Index_inl (io : option error) (i i' : bleve.Index) (id : string)
    (data : Memory) :
  bleve.Index_ io i id data = inl i' →
  id ≠ "" ∧ io = None
  ∧ i' = {| bleve.mapping := bleve.mapping i;
            bleve.docs :=
              filter (λ d, d.1 ≠ id) (bleve.docs i) ++ [(id, data)] |}.
Proof.
  unfold bleve.Index_. case_decide; [done|].
  destruct io; [done|]. intros [= <-]. done.
Qed.

Lemma elem_of_upsert (l : list (string * Memory)) (id id' : string)
    (d d' : Memory) :
  (id', d') ∈ filter (λ x, x.1 ≠ id) l ++ [(id, d)] ↔
  ((id', d') ∈ l ∧ id' ≠ id) ∨ (id' = id ∧ d' = d).
Proof.
  rewrite elem_of_app, list_elem_of_filter, list_elem_of_singleton. simpl.
  split.
  - intros [[? ?]|[= -> ->]]; [left|right]; done.
  - intros [[? ?]| [-> ->]]; [left|right]; done.
Qed.

Lemma ids_upsert (l : list (string * Memory)) (id id' : string) (d : Memory) :
  id' ∈ (filter (λ x, x.1 ≠ id) l ++ [(id, d)]).*1 ↔ id' ∈ l.*1 ∨ id' = id.
Proof.
  rewrite !list_elem_of_fmap. split.
  - intros ([i0 d0] & -> & [[? ?]|[? ?]]%elem_of_upsert); simpl in *.
    + left. by exists (i0, d0).
    + by right.
  - intros [([i0 d0] & -> & Hin)| ->]; simpl.
    + destruct (decide (i0 = id)) as [->|Hne].
      * exists (id, d). split; [done|]. apply elem_of_upsert. by right.
      * exists (i0, d0). split; [done|]. apply elem_of_upsert. by left.
    + exists (id, d). split; [done|]. apply elem_of_upsert. by right.
Qed.

(** The loop of [NewMemoryStore] over the bucket: when it completes,
    every pair visited has been decoded and is in the index under the
    id of its record, and whatever is in the index was there before or
    comes from a visited pair. *)
Lemma ForEach_index_record {bytes} (json_Unmarshal : bytes → Memory + error)
    (io : StartupIO bytes) (b : bolt.Bucket bytes) (i i' : bleve.Index) :
  bolt.ForEach b (index_record json_Unmarshal io) i = inl i' →
  bleve.mapping i' = bleve.mapping i
  ∧ (∀ id, id ∈ (bleve.docs i).*1 → id ∈ (bleve.docs i').*1)
  ∧ (∀ k data, (k, data) ∈ b →
       ∃ m, json_Unmarshal data = inl m ∧ ID m ∈ (bleve.docs i').*1)
  ∧ (∀ id d, (id, d) ∈ bleve.docs i' →
       (id, d) ∈ bleve.docs i
       ∨ ∃ k data, (k, data) ∈ b ∧ json_Unmarshal data = inl d ∧ ID d = id).
Proof.
  revert i. induction b as [|[k v] b IH]; intros i; simpl.
  - intros [= <-]. split_and!; [done|done| |by left].
    by intros ?? ?%elem_of_nil.
  - unfold index_record at 1.
    destruct (json_Unmarshal v) as [m|err] eqn:Hdec; [|done].
    destruct (bleve.Index_ _ i (ID m) m) as [i1|err] eqn:Hidx; [|done].
    apply bleve_Index_inl in Hidx as (Hne & Hio & ->).
    intros (Hmap & Hids & Hall & Hfrom)%IH. simpl in *.
    split_and!; [done|..].
    + intros id Hid. apply Hids, ids_upsert. by left.
    + intros k' data [[= -> ->]|Hin]%elem_of_cons.
      * exists m. split; [done|]. apply Hids, ids_upsert. by right.
      * destruct (Hall _ _ Hin) as (m' & ? & ?). by exists m'.
    + intros id d [[[? ?]|[-> ->]]%elem_of_upsert|(k' & data & ? & ? & ?)]%Hfrom.
      * by left.
      * right. exists k, v. split_and!; [left|..]; done.
      * right. exists k', data. split_and!; [by right|done..].
Qed.

Lemma ForEach_index_record_total {bytes} (json_Unmarshal : bytes → Memory + error)
    (io : StartupIO bytes) (b : bolt.Bucket bytes) (i : bleve.Index) :
  (∀ k data, (k, data) ∈ b →
     index_existing io k = None
     ∧ ∃ m, json_Unmarshal data = inl m ∧ ID m ≠ "") →
  ∃ i', bolt.ForEach b (index_record json_Unmarshal io) i = inl i'.
Proof.
  revert i. induction b as [|[k v] b IH]; intros i Hb; simpl; [by eexists|].
  destruct (Hb k v) as (Hio & m & Hdec & Hne); [by left|].
  unfold index_record at 1. rewrite Hdec, Hio. unfold bleve.Index_.
  rewrite decide_False by done. apply IH.
  intros k' data Hin. apply Hb. by right.
Qed.

(** C9.  When the record store opens and the index does not, and
    start-up succeeds, the store is served with a newly created index
    that holds an entry for every record of the store and nothing else;
    start-up does succeed when no I/O fails and every stored value
    decodes to a record with an id. *)
Theorem NewMemoryStore_rebuilds_index {bytes}
    (json_Unmarshal : bytes → Memory + error)
    (NewIndexMapping : bleve.IndexMapping) (io : StartupIO bytes)
    (dbPath : string) (found : option (bolt.Bucket bytes)) (openErr : error) :
  bolt_Open io = inl found →
  bleve_Open io = inr openErr →
  (∀ ms, NewMemoryStore json_Unmarshal NewIndexMapping io dbPath = inl ms →
     db ms = default [] found
     ∧ bleve.mapping (index ms) = NewIndexMapping
     ∧ (∀ k data, (k, data) ∈ db ms →
          ∃ m, json_Unmarshal data = inl m
               ∧ ID m ∈ (bleve.docs (index ms)).*1)
     ∧ (∀ id d, (id, d) ∈ bleve.docs (index ms) →
          ∃ k data, (k, data) ∈ db ms ∧ json_Unmarshal data = inl d ∧ ID d = id))
  ∧ (create_bucket io = None → bleve_New io = None → startup_view io = None →
     (∀ k data, (k, data) ∈ default [] found →
        index_existing io k = None
        ∧ ∃ m, json_Unmarshal data = inl m ∧ ID m ≠ "") →
     ∃ ms, NewMemoryStore json_Unmarshal NewIndexMapping io dbPath = inl ms).
Proof.
  intros Hdb Hidx. unfold NewMemoryStore, bolt.Update. rewrite Hdb, Hidx.
  split.
  - intros ms. destruct (create_bucket io); [done|].
    destruct (bleve_New io); [done|]. destruct (startup_view io); [done|].
    destruct (bolt.ForEach _ _ _) as [i'|err] eqn:Hrun; [|done].
    intros [= <-]. simpl.
    apply ForEach_index_record in Hrun as (Hmap & _ & Hall & Hfrom).
    split_and!; [done|done|done|].
    intros id d [[]%elem_of_nil|?]%Hfrom. done.
  - intros -> -> -> Hall.
    destruct (ForEach_index_record_total json_Unmarshal io (default [] found)
                (bleve.New NewIndexMapping) Hall) as [i' ->].
    by eexists.
Qed.

Lemma NewMemoryStore_rebuilds_index_witness :
  ∃ ms, NewMemoryStore decode words_mapping index_missing "memory.db" = inl ms
    ∧ db ms = db three_tagged
    ∧ (bleve.docs (index ms)).*1 = ["mem_1"; "mem_2"; "mem_3"].
Proof.
  destruct (NewMemoryStore_rebuilds_index decode words_mapping index_missing
              "memory.db" (Some (db three_tagged))
              "cannot open index, path does not exist")
    as [Hshape _]; [reflexivity..|].
  eexists. split; [reflexivity|].
  split; [|reflexivity].
  by destruct (Hshape _ eq_refl) as (-> & _).
Defined.

(** ** Ranking *)

Lemma insert_desc_Permutation {A} (score : A → Q) (x : A) (l : list A) :
  insert_desc score x l ≡ₚ x :: l.
Proof.
  induction l as [|y l IH]; simpl; [done|].
  destruct (Qle_bool (score y) (score x)); [done|].
  rewrite IH. apply Permutation_swap.
Qed.

Lemma sort_desc_Permutation {A} (score : A → Q) (l : list A) :
  sort_desc score l ≡ₚ l.
Proof.
  induction l as [|x l IH]; simpl; [done|].
  unfold sort_desc in *. simpl. by rewrite insert_desc_Permutation, IH.
Qed.

Lemma insert_desc_sorted {A} (score : A → Q) (x : A) (l : list A) :
  StronglySorted (λ a b, (score b <= score a)%Q) l →
  StronglySorted (λ a b, (score b <= score a)%Q) (insert_desc score x l).
Proof.
  induction 1 as [|y l Hl IH Hy]; simpl.
  - repeat constructor.
  - destruct (Qle_bool (score y) (score x)) eqn:Hle.
    + apply Qle_bool_iff in Hle. constructor; [by constructor|].
      constructor; [done|].
      eapply Forall_impl; [exact Hy|]. simpl. intros z Hz.
      by eapply Qle_trans.
    + constructor; [done|].
      assert (score x < score y)%Q as Hlt.
      { apply Qnot_le_lt. intros Hc%Qle_bool_iff. congruence. }
      rewrite insert_desc_Permutation. constructor; [|done].
      by apply Qlt_le_weak.
Qed.

Lemma sort_desc_sorted {A} (score : A → Q) (l : list A) :
  StronglySorted (λ a b, (score b <= score a)%Q) (sort_desc score l).
Proof.
  induction l as [|x l IH]; [constructor|].
  by apply insert_desc_sorted.
Qed.

Lemma rank_Permutation (tie : string → Q) (l : list bleve.DocumentMatch) :
  bleve.rank tie l ≡ₚ l.
Proof. unfold bleve.rank. by rewrite !sort_desc_Permutation. Qed.

Lemma rank_sorted (tie : string → Q) (l : list bleve.DocumentMatch) :
  StronglySorted (λ a b, (bleve.Score b <= bleve.Score a)%Q) (bleve.rank tie l).
Proof. apply sort_desc_sorted. Qed.

(** ** Match-all *)

Lemma hydrate_length {bytes} (json_Unmarshal : bytes → Memory + error)
    (b : bolt.Bucket bytes) (hits : list bleve.DocumentMatch) :
  (∀ h, h ∈ hits →
     ∃ data m, bolt.Get b (bleve.hit_ID h) = Some data
               ∧ json_Unmarshal data = inl m) →
  length (hydrate json_Unmarshal b hits) = length hits.
Proof.
  induction hits as [|h hits IH]; intros Hall; simpl; [done|].
  destruct (Hall h) as (data & m & -> & ->); [by left|].
  simpl. f_equal. apply IH. intros h' ?. apply Hall. by right.
Qed.

Lemma hydrate_length_le {bytes} (json_Unmarshal : bytes → Memory + error)
    (b : bolt.Bucket bytes) (hits : list bleve.DocumentMatch) :
  (length (hydrate json_Unmarshal b hits) ≤ length hits)%nat.
Proof.
  induction hits as [|h hits IH]; simpl; [done|].
  destruct (bolt.Get b (bleve.hit_ID h)) as [data|]; [|lia].
  destruct (json_Unmarshal data); simpl; lia.
Qed.

Lemma candidates_MatchAll (i : bleve.Index) :
  bleve.hit_ID <$> bleve.candidates i bleve.MatchAllQuery = (bleve.docs i).*1.
Proof.
  unfold bleve.candidates. simpl.
  generalize (bleve.scoring (bleve.mapping i) bleve.MatchAllQuery
                (map snd (bleve.docs i))).
  intros score. induction (bleve.docs i) as [|d l IH]; [done|].
  rewrite filter_cons_True by done. simpl. f_equal. apply IH.
Qed.

(** After successful adds from a fresh store the index holds each id
    returned exactly once, and the bucket holds a record that decodes
    for each of them. *)
Lemma Added_invariant {bytes} (json_Marshal : Memory → bytes + error)
    (json_Unmarshal : bytes → Memory + error) (ids : list string)
    (ms : MemoryStore bytes) :
  (∀ m data, json_Marshal m = inl data → ∃ m', json_Unmarshal data = inl m') →
  Added json_Marshal ids ms →
  NoDup (bleve.docs (index ms)).*1
  ∧ (∀ id, id ∈ (bleve.docs (index ms)).*1 ↔ id ∈ ids)
  ∧ (∀ id, id ∈ (bleve.docs (index ms)).*1 →
       ∃ data m, bolt.Get (db ms) id = Some data ∧ json_Unmarshal data = inl m).
Proof.
  intros Hcodec. induction 1 as [m|ids ms ms' io c ty tg id _ IH Hadd]; simpl.
  - split_and!; [constructor|done|]. by intros ? ?%elem_of_nil.
  - destruct IH as (Hnd & Hids & Hget).
    rewrite Add_unfold in Hadd.
    set (memory := new_memory io c ty tg) in *.
    destruct (json_Marshal memory) as [data|] eqn:Hdata; [|by simplify_eq].
    destruct (add_commit io); [by simplify_eq|].
    destruct (add_index io); [by simplify_eq|].
    simpl in Hadd. injection Hadd as <- <-. simpl.
    split_and!.
    + rewrite fmap_app. apply NoDup_app. split_and!.
      * apply (sublist_NoDup _ (bleve.docs (index ms)).*1);
          [exact Hnd|apply fmap_sublist, sublist_filter].
      * intros x Hx Hx'. simpl in Hx'. apply list_elem_of_singleton in Hx' as ->.
        apply list_elem_of_fmap in Hx as ([x' d] & Heq & [Hne _]%list_elem_of_filter).
        simpl in *. congruence.
      * apply NoDup_singleton.
    + intros id'. rewrite ids_upsert, elem_of_cons, Hids. tauto.
    + intros id' [Hin| ->]%ids_upsert.
      * destruct (decide (id' = ID memory)) as [->|Hne].
        -- rewrite bolt_Get_insert_key_eq.
           destruct (Hcodec _ _ Hdata) as [m' ?]. eauto.
        -- rewrite bolt_Get_insert_key_ne by done. by apply Hget.
      * rewrite bolt_Get_insert_key_eq.
        destruct (Hcodec _ _ Hdata) as [m' ?]. eauto.
Qed.

(** C8.  With empty text and no tags [Search] asks the match-all
    query, which every indexed record satisfies; after [N] successful
    adds to a fresh store it returns at most [min N 100] records, and
    exactly that many when the adds got distinct ids. *)
Theorem Search_match_all {bytes} (json_Marshal : Memory → bytes + error)
    (json_Unmarshal : bytes → Memory + error) (ids : list string)
    (ms : MemoryStore bytes) (io : SearchIO) :
  (∀ m data, json_Marshal m = inl data → ∃ m', json_Unmarshal data = inl m') →
  Added json_Marshal ids ms →
  search_index io = None → search_view io = None →
  build_query "" [] = bleve.MatchAllQuery
  ∧ (∀ d, bleve.matches (bleve.mapping (index ms)) (build_query "" []) d = true)
  ∧ ∃ found, Search json_Unmarshal io ms "" [] = inl (found, None)
      ∧ (length found ≤ length ids `min` 100)%nat
      ∧ (NoDup ids → length found = length ids `min` 100)%nat.
Proof.
  intros Hcodec Hadded Hindex Hview.
  split_and!; [done|done|].
  rewrite Search_unfold, Hindex, Hview. eexists. split; [done|].
  change (build_query "" []) with bleve.MatchAllQuery.
  destruct (Added_invariant _ _ _ _ Hcodec Hadded) as (Hnd & Hids & Hget).
  set (hits := take 100 (bleve.rank (search_tie io)
                           (bleve.candidates (index ms) bleve.MatchAllQuery))).
  assert (length hits = length (bleve.docs (index ms)) `min` 100)%nat as Hlen.
  { unfold hits. rewrite length_take, rank_Permutation.
    rewrite <-(length_fmap bleve.hit_ID), candidates_MatchAll, length_fmap. lia. }
  assert (length (hydrate json_Unmarshal (db ms) hits) = length hits) as ->.
  { apply hydrate_length. intros h Hh. apply Hget.
    rewrite <-candidates_MatchAll. apply list_elem_of_fmap. exists h.
    split; [done|].
    apply (subseteq_take 100) in Hh.
    by rewrite rank_Permutation in Hh. }
  rewrite Hlen, <-(length_fmap fst (bleve.docs (index ms))). split.
  - assert ((bleve.docs (index ms)).*1 ⊆+ ids) as Hsub
      by (apply NoDup_submseteq; [done|by intros ? ?%Hids]).
    apply submseteq_length in Hsub. lia.
  - intros Hnd'.
    assert ((bleve.docs (index ms)).*1 ≡ₚ ids) as ->
      by by apply NoDup_Permutation.
    done.
Qed.

Lemma Search_match_all_witness :
  ∃ found, Search decode search_ok three_tagged "" [] = inl (found, None)
    ∧ length found = 3%nat.
Proof.
  assert (Added encode ["mem_3"; "mem_2"; "mem_1"] three_tagged) as Hadded.
  { apply (Added_Add encode ["mem_2"; "mem_1"]
             (add_all 1 [("alpha", "fact", ["a"]); ("beta", "fact", ["b"])]
                empty_store)
             three_tagged (add_at 3) "gamma" "fact" ["a"; "b"] "mem_3");
      [|reflexivity].
    apply (Added_Add encode ["mem_1"]
             (add_all 1 [("alpha", "fact", ["a"])] empty_store)
             _ (add_at 2) "beta" "fact" ["b"] "mem_2");
      [|reflexivity].
    apply (Added_Add encode [] empty_store _ (add_at 1) "alpha" "fact" ["a"] "mem_1");
      [|reflexivity].
    apply Added_fresh. }
  destruct (Search_match_all encode decode ["mem_3"; "mem_2"; "mem_1"]
              three_tagged search_ok)
    as (_ & _ & found & Hrun & _ & Hlen).
  - intros m data [= <-]. by exists m.
  - exact Hadded.
  - reflexivity.
  - reflexivity.
  - exists found. split; [exact Hrun|]. apply Hlen.
    by apply (bool_decide_unpack _).
Defined.

(** ** Conjunction *)

Lemma elem_of_candidates (i : bleve.Index) (q : bleve.Query)
    (h : bleve.DocumentMatch) :
  h ∈ bleve.candidates i q ↔
  ∃ d, d ∈ bleve.docs i ∧ bleve.matches (bleve.mapping i) q d.2 = true
       ∧ bleve.hit_ID h = d.1
       ∧ h = {| bleve.hit_ID := d.1;
                bleve.Score :=
                  bleve.scoring (bleve.mapping i) q (map snd (bleve.docs i)) d.2 |}.
Proof.
  unfold bleve.candidates. rewrite list_elem_of_In, in_map_iff. split.
  - intros (d & <- & Hd%list_elem_of_In%list_elem_of_filter). exists d. tauto.
  - intros (d & ? & ? & _ & ->). exists d. split; [done|].
    by apply list_elem_of_In, list_elem_of_filter.
Qed.

Lemma matches_tags (m : bleve.IndexMapping) (tags : list string) (d : Memory) :
  forallb (λ q', bleve.matches m q' d) (map (λ tag, bleve.TermQuery tag "Tags") tags)
  = forallb (λ tag, bool_decide (tag ∈ bleve.terms m "Tags" d)) tags.
Proof. induction tags as [|t tags IH]; simpl; [done|]. by rewrite IH. Qed.

(** The query [Search] builds is satisfied exactly by the documents
    that satisfy the match query on the text, when there is a text, and
    the term query of every tag. *)
Lemma build_query_matches (m : bleve.IndexMapping) (queryString : string)
    (tags : list string) (d : Memory) :
  bleve.matches m (build_query queryString tags) d
  = (if decide (queryString ≠ "")
     then bleve.matches m (bleve.MatchQuery queryString "Content") d
     else true)
    && forallb (λ tag, bool_decide (tag ∈ bleve.terms m "Tags" d)) tags.
Proof.
  unfold build_query. rewrite <-matches_tags.
  case_decide; destruct tags as [|t [|t' tags]]; simpl;
    rewrite ?andb_true_r; done.
Qed.

Lemma default_mapping_no_Content (analyzer : string → list string)
    (scoring : bleve.Query → list Memory → Memory → Q) (d : Memory) :
  bleve.terms (default_mapping analyzer scoring) "Content" d = []
  ∧ bleve.terms (default_mapping analyzer scoring) "Tags" d = [].
Proof. split; reflexivity. Qed.

(** C4 (code defect).  [Search] asks for its clauses under the field
    names "Content" and "Tags", while the index of [NewMemoryStore]
    holds the fields of [Memory] under the names of their json tags,
    "content" and "tags".  In a store with that index no document holds
    a term under a queried field, so that every search with a text or
    with a tag returns no record, whatever is stored: the tag
    conjunction of the claim never selects the record tagged {a,b}. *)
Theorem Search_with_clauses_finds_nothing {bytes}
    (json_Unmarshal : bytes → Memory + error) (io : SearchIO)
    (ms : MemoryStore bytes) (analyzer : string → list string)
    (scoring : bleve.Query → list Memory → Memory → Q)
    (queryString : string) (tags : list string) :
  bleve.mapping (index ms) = default_mapping analyzer scoring →
  queryString ≠ "" ∨ tags ≠ [] →
  search_index io = None → search_view io = None →
  Search json_Unmarshal io ms queryString tags = inl ([], None).
Proof.
  intros Hmap Hclause Hindex Hview. rewrite Search_unfold, Hindex, Hview.
  assert (bleve.candidates (index ms) (build_query queryString tags) = [])
    as ->; [|done].
  unfold bleve.candidates. rewrite Hmap.
  assert (∀ d, bleve.matches (default_mapping analyzer scoring)
                 (build_query queryString tags) d = false) as Hnone.
  { intros d. rewrite build_query_matches.
    destruct (default_mapping_no_Content analyzer scoring d) as [Hc Ht].
    destruct Hclause as [Hq|Ht'].
    - rewrite decide_True by done. apply andb_false_intro1.
      cbn [bleve.matches]. rewrite Hc.
      by induction (bleve.analyze _ _ _).
    - apply andb_false_intro2. destruct tags as [|tag tags]; [done|].
      cbn [forallb]. by rewrite Ht. }
  assert (∀ l : list (string * Memory),
            filter (λ d, bleve.matches (default_mapping analyzer scoring)
                           (build_query queryString tags) d.2 = true) l = [])
    as ->; [|done].
  induction l as [|d l IH]; [done|].
  rewrite filter_cons_False; [done|]. by rewrite Hnone.
Qed.

Lemma Search_with_clauses_finds_nothing_witness :
  bolt.Get (db three_tagged) "mem_3"
  = Some (Encoded (new_memory (add_at 3) "gamma" "fact" ["a"; "b"]))
  ∧ ("mem_3", new_memory (add_at 3) "gamma" "fact" ["a"; "b"])
    ∈ bleve.docs (index three_tagged)
  ∧ Search decode search_ok three_tagged "" ["a"; "b"] = inl ([], None)
  ∧ Search decode search_ok three_tagged "gamma" [] = inl ([], None).
Proof.
  split_and!.
  - reflexivity.
  - right. right. left.
  - apply (Search_with_clauses_finds_nothing decode search_ok three_tagged
             String.words overlap_scoring "" ["a"; "b"]);
      [reflexivity|by right|reflexivity..].
  - apply (Search_with_clauses_finds_nothing decode search_ok three_tagged
             String.words overlap_scoring "gamma" []);
      [reflexivity|by left|reflexivity..].
Defined.

(** ** The semantic variant *)

(** C6.  When the call to the embedding provider fails, the semantic
    [add_memory] handler answers with an error and the collection is
    what it was: no document is written. *)
Theorem addMemoryTool_embedding_failure (float32 : Q → Q)
    (normalize : list Q → list Q) (io : Semantic.AddIO)
    (collection : gmap string chromem.Document) (args : gmap string Value)
    (err : error) :
  Semantic.add_CreateEmbeddings io = inr err →
  ∃ r, Semantic.addMemoryTool float32 normalize io collection args
       = Return (collection, r)
    ∧ IsError r = true
    ∧ (is_Some (assert_string (args !! "content")) →
       Text r = "failed to generate embedding: "
                +:+ Errorf "error creating embedding" err).
Proof.
  intros Hfail. unfold Semantic.addMemoryTool, Semantic.generateEmbedding.
  rewrite Hfail. destruct (assert_string (args !! "content")) as [content|].
  - eexists. split_and!; done.
  - eexists. split_and!; [done..|]. by intros [? ?].
Qed.

Lemma addMemoryTool_embedding_failure_witness :
  Semantic.addMemoryTool id unit_length (embed_fails 8 "quota exceeded") five_vectors
    {[ "content" := VString "alpha" ]}
  = Return (five_vectors,
            NewToolResultError
              "failed to generate embedding: error creating embedding: quota exceeded").
Proof.
  destruct (addMemoryTool_embedding_failure id unit_length (embed_fails 8 "quota exceeded")
              five_vectors {[ "content" := VString "alpha" ]} "quota exceeded")
    as (r & -> & Herr & Htext); [reflexivity|].
  destruct r as [text isError]. simpl in *. rewrite Herr, Htext; [reflexivity|].
  by eexists.
Defined.

(** ** Result counts *)

Lemma request_limit_insert (args : gmap string Value) (n : Z) :
  -2 ^ 63 ≤ n < 2 ^ 63 →
  Semantic.request_limit (<["limit" := VNumber (inject_Z n)]> args) = n.
Proof.
  intros Hn. unfold Semantic.request_limit. rewrite lookup_insert_eq.
  unfold assert_float64, int_of_float64, inject_Z, Qnum, Qden.
  rewrite Z.quot_1_r. by rewrite decide_True.
Qed.

Lemma QueryEmbedding_inl (similarity : list Q → list Q → Q) (tie : string → Q)
    (c : gmap string chromem.Document) (queryEmbedding : list Q) (nResults : Z)
    (results : list chromem.Result) :
  chromem.QueryEmbedding similarity tie c queryEmbedding nResults = inl results →
  1 ≤ nResults ≤ Z.of_nat (size c)
  ∧ length results = Z.to_nat nResults
  ∧ ∃ ranked, results = take (Z.to_nat nResults) ranked
      ∧ ranked ≡ₚ map (chromem.result_of similarity queryEmbedding)
                    (map_to_list c).*2
      ∧ StronglySorted
          (λ a b, (chromem.Similarity b <= chromem.Similarity a)%Q) ranked.
Proof.
  unfold chromem.QueryEmbedding. repeat case_decide; try done.
  intros [= <-]. split; [lia|]. split.
  - rewrite length_take, !sort_desc_Permutation, length_map, length_fmap,
      length_map_to_list. lia.
  - eexists. split_and!; [done| |apply sort_desc_sorted].
    by rewrite !sort_desc_Permutation.
Qed.

Lemma Search_length {bytes} (json_Unmarshal : bytes → Memory + error)
    (io : SearchIO) (ms : MemoryStore bytes) (queryString : string)
    (tags : list string) (found : list Memory) (err : option error) :
  Search json_Unmarshal io ms queryString tags = inl (found, err) →
  (length found ≤ 100)%nat.
Proof.
  rewrite Search_unfold. destruct (search_index io); [done|].
  destruct (search_view io); intros [= <- <-]; simpl; [lia|].
  etrans; [apply hydrate_length_le|]. rewrite length_take. lia.
Qed.

(** C3 (as amended).  The lexical search returns at most 100 records,
    hydrated from the first hundred of the matching documents taken in
    descending score order, and has no per-call limit: a "limit" in the
    request changes nothing.  The semantic search applies no ceiling:
    the requested limit (5 when none is given) goes to the collection
    query as it is, and whenever that query answers, it answers with
    exactly that many results, taken from the front of the stored
    documents in descending similarity order; it answers when the
    provider returns a vector that is not empty, the stored vectors
    have its length and the limit is between 1 and the number of stored
    documents. *)
Theorem Search_result_count {bytes} (json_Unmarshal : bytes → Memory + error)
    (io : SearchIO) (ms : MemoryStore bytes) (args : gmap string Value)
    (limit : Value) (float32 : Q → Q) (similarity : list Q → list Q → Q)
    (sio : Semantic.SearchIO) (collection : gmap string chromem.Document)
    (query : string) :
  (∀ found err,
     searchTool_results json_Unmarshal io ms (<["limit" := limit]> args)
     = inl (found, err) →
     (length found ≤ 100)%nat
     ∧ searchTool_results json_Unmarshal io ms args = inl (found, err)
     ∧ (err = None →
        ∃ ranked,
          ranked ≡ₚ bleve.candidates (index ms)
                      (build_query (default "" (assert_string (args !! "query")))
                         (request_tags args))
          ∧ StronglySorted (λ a b, (bleve.Score b <= bleve.Score a)%Q) ranked
          ∧ found = hydrate json_Unmarshal (db ms) (take 100 ranked)))
  ∧ searchTool json_Unmarshal io ms (<["limit" := limit]> args)
    = searchTool json_Unmarshal io ms args
  ∧ (∀ n, -2 ^ 63 ≤ n < 2 ^ 63 →
       Semantic.request_limit (<["limit" := VNumber (inject_Z n)]> args) = n)
  ∧ (∀ results,
       Semantic.searchTool_results float32 similarity sio collection query args
       = Return (inl results) →
       1 ≤ Semantic.request_limit args ≤ Z.of_nat (size collection)
       ∧ length results = Z.to_nat (Semantic.request_limit args)
       ∧ ∃ e rest ranked,
           Semantic.search_CreateEmbeddings sio = inl (e :: rest)
           ∧ ranked ≡ₚ map (chromem.result_of similarity (map float32 e))
                         (map_to_list collection).*2
           ∧ StronglySorted
               (λ a b, (chromem.Similarity b <= chromem.Similarity a)%Q) ranked
           ∧ results = take (Z.to_nat (Semantic.request_limit args)) ranked)
  ∧ (∀ e rest,
       Semantic.search_CreateEmbeddings sio = inl (e :: rest) → e ≠ [] →
       (∀ id d, collection !! id = Some d →
          length (chromem.Embedding d) = length e) →
       1 ≤ Semantic.request_limit args ≤ Z.of_nat (size collection) →
       ∃ results,
         Semantic.searchTool_results float32 similarity sio collection query args
         = Return (inl results)).
Proof.
  assert (searchTool_results json_Unmarshal io ms (<["limit" := limit]> args)
          = searchTool_results json_Unmarshal io ms args) as Hsame.
  { unfold searchTool_results, request_tags.
    by rewrite !lookup_insert_ne by done. }
  split_and!.
  - intros found err Hrun. split_and!.
    + rewrite Hsame in Hrun. by eapply Search_length.
    + by rewrite <-Hsame.
    + intros ->. rewrite Hsame in Hrun. unfold searchTool_results in Hrun.
      rewrite Search_unfold in Hrun. destruct (search_index io); [done|].
      destruct (search_view io); [done|]. injection Hrun as <-.
      eexists. split_and!; [apply rank_Permutation|apply rank_sorted|done].
  - unfold searchTool. by rewrite Hsame.
  - apply request_limit_insert.
  - intros results. unfold Semantic.searchTool_results, Semantic.generateEmbedding.
    destruct (Semantic.search_CreateEmbeddings sio) as [[|e rest]|err]; [done| |done].
    destruct (chromem.QueryEmbedding _ _ _ _ _) as [rs|err] eqn:Hq; [|done].
    intros [= <-].
    apply QueryEmbedding_inl in Hq as (Hn & Hlen & ranked & -> & Hperm & Hsorted).
    split_and!; [lia|lia|done|].
    by exists e, rest, ranked.
  - intros e rest Hreply Hne Hdim Hn.
    unfold Semantic.searchTool_results, Semantic.generateEmbedding.
    rewrite Hreply. unfold chromem.QueryEmbedding.
    rewrite decide_False by (rewrite length_map; by destruct e).
    rewrite decide_False by lia. rewrite decide_False by lia.
    rewrite decide_True; [by eexists|].
    apply Forall_forall. intros d ([id d'] & -> & Hd%elem_of_map_to_list)%list_elem_of_fmap.
    rewrite length_map. by eapply Hdim.
Qed.

Lemma Search_result_count_witness :
  (∃ found, searchTool_results decode search_ok five_records limit_two
            = inl (found, None)
     ∧ (length found ≤ 100)%nat)
  ∧ Semantic.request_limit limit_two = 2
  ∧ ∃ results,
      Semantic.searchTool_results id dot query_vector five_vectors "note" limit_two
      = Return (inl results)
      ∧ length results = 2%nat.
Proof.
  destruct (Search_result_count decode search_ok five_records
              (delete "limit" limit_two) (VNumber 2) id dot query_vector
              five_vectors "note")
    as (Hlex & _ & Hlimit & _ & _).
  destruct (Search_result_count decode search_ok five_records
              limit_two (VNumber 2) id dot query_vector five_vectors "note")
    as (_ & _ & _ & Hcount & Hruns).
  split_and!.
  - eexists. split; [vm_compute; reflexivity|].
    refine (proj1 (Hlex _ None _)). vm_compute. reflexivity.
  - apply (Hlimit 2). lia.
  - destruct (Hruns [1; 0]%Q []) as [results Hrun].
    + reflexivity.
    + done.
    + intros id d Hd.
      assert (map_Forall (λ _ d, length (chromem.Embedding d) = 2%nat) five_vectors)
        as Hall.
      { apply (bool_decide_unpack _). vm_compute. exact I. }
      exact (Hall id d Hd).
    + vm_compute. split; discriminate.
    + exists results. split; [exact Hrun|].
      by destruct (Hcount results Hrun) as (_ & -> & _).
Defined.

(** C3 (as stated) fails.  With five records in the store, all of
    which satisfy the match-all query of a request without text or
    tags, a lexical search that asks for two results returns five
    records. *)
Lemma Search_limit_counterexample :
  assert_float64 (limit_two !! "limit") = Some 2%Q
  ∧ ∃ found, searchTool_results decode search_ok five_records limit_two
             = inl (found, None)
      ∧ length found = 5%nat.
Proof. split; [reflexivity|]. eexists. split; vm_compute; reflexivity. Qed.

(** * Further properties of the engine *)

(** ** The bucket, continued *)

Lemma bolt_Get_Delete_ne {V} (b : bolt.Bucket V) (key key' : string) :
  key ≠ key' → bolt.Get (bolt.Delete b key) key' = bolt.Get b key'.
Proof.
  intros Hne. induction b as [|[k v] b IH]; [done|].
  unfold bolt.Delete in *. rewrite filter_cons. simpl.
  case_decide as Hk; simpl.
  - by rewrite IH.
  - try apply dec_stable in Hk. subst k.
    destruct (String.eqb_spec key' key); [congruence|done].
Qed.

Lemma bolt_Get_elem_of {V} (b : bolt.Bucket V) (key : string) (v : V) :
  bolt.Get b key = Some v → (key, v) ∈ b.
Proof.
  induction b as [|[k w] b IH]; [done|]. simpl.
  destruct (String.eqb_spec key k) as [->|_].
  - intros [= ->]. by left.
  - intros ?. right. by apply IH.
Qed.

Lemma bolt_elem_of_Get {V} (b : bolt.Bucket V) (key : string) (v : V) :
  (key, v) ∈ b → is_Some (bolt.Get b key).
Proof.
  induction b as [|[k w] b IH]; [by intros ?%elem_of_nil|]. simpl.
  destruct (String.eqb_spec key k) as [->|Hne]; [by eexists|].
  intros [[= ? ?]|?]%elem_of_cons; [done|]. by apply IH.
Qed.

Lemma bolt_Delete_insert_key {V} (b : bolt.Bucket V) (key : string) (v : V) :
  bolt.Get b key = None → bolt.Delete (bolt.insert_key key v b) key = b.
Proof.
  induction b as [|[k w] b IH]; simpl.
  - intros _. unfold bolt.Delete. rewrite filter_cons. simpl.
    by rewrite decide_False by (by intros []).
  - destruct (String.eqb_spec key k) as [->|Hne]; [done|]. intros Hget.
    assert (bolt.Delete ((k, w) :: b) key = (k, w) :: b) as Hrest.
    { apply bolt_Delete_absent. simpl.
      by destruct (String.eqb_spec key k); [congruence|]. }
    destruct (String.compare key k) eqn:Hc.
    + by apply String.compare_eq_iff in Hc.
    + unfold bolt.Delete in *. rewrite filter_cons. simpl.
      by rewrite decide_False by (by intros []).
    + unfold bolt.Delete in *. rewrite filter_cons. simpl.
      rewrite decide_True by done. f_equal. by apply IH.
Qed.

(** What [Delete] does, by the outcomes of its two fallible steps. *)
Lemma Delete_unfold {bytes} (io : DeleteIO) (ms : MemoryStore bytes) (id : string) :
  Delete io ms id =
    match delete_commit io with
    | Some err => (ms, Some (Errorf "failed to delete memory" err))
    | None =>
        let b' := bolt.Delete (db ms) id in
        if decide (id = "") then
          ({| db := b'; index := index ms |},
           Some (Errorf "failed to delete from index" bleve.ErrorEmptyID))
        else
          match delete_index io with
          | Some err =>
              ({| db := b'; index := index ms |},
               Some (Errorf "failed to delete from index" err))
          | None =>
              ({| db := b';
                  index :=
                    {| bleve.mapping := bleve.mapping (index ms);
                       bleve.docs :=
                         filter (λ d, d.1 ≠ id) (bleve.docs (index ms)) |} |},
               None)
          end
    end.
Proof.
  unfold Delete, bolt.Update, bleve.Delete.
  destruct (delete_commit io); [done|]. case_decide; [done|].
  by destruct (delete_index io).
Qed.

Lemma filter_upsert_eq (l : list (string * Memory)) (id : string) (d : Memory) :
  filter (λ x, x.1 = id) (filter (λ x, x.1 ≠ id) l ++ [(id, d)]) = [(id, d)].
Proof.
  rewrite filter_app.
  assert (filter (λ x : string * Memory, x.1 = id) (filter (λ x, x.1 ≠ id) l) = [])
    as ->.
  { induction l as [|x l IH]; [done|]. rewrite (filter_cons (λ x, x.1 ≠ id)).
    case_decide; [|done]. by rewrite filter_cons_False. }
  by rewrite filter_cons_True.
Qed.

Lemma filter_upsert_ne (l : list (string * Memory)) (id : string) (d : Memory) :
  filter (λ x, x.1 ≠ id) (filter (λ x, x.1 ≠ id) l ++ [(id, d)])
  = filter (λ x, x.1 ≠ id) l.
Proof.
  rewrite filter_app, filter_cons_False by (simpl; by intros []).
  rewrite filter_nil, app_nil_r.
  induction l as [|x l IH]; [done|]. rewrite (filter_cons _ x).
  case_decide; [|done]. rewrite filter_cons_True by done. by rewrite IH.
Qed.

(** ** Adding and deleting *)

(** X1.  A successful [Add] returns the id made from its clock
    reading, leaves the encoding of the new record under that id in the
    bucket and exactly one document under that id in the index, the new
    record, whatever was stored or indexed under the id before; every
    other key and every other document is as it was. *)
Theorem Add_stores_and_indexes {bytes} (json_Marshal : Memory → bytes + error)
    (io : AddIO) (ms ms' : MemoryStore bytes) (content memType : string)
    (tags : list string) (id : string) :
  Add json_Marshal io ms content memType tags = (ms', inl id) →
  let memory := new_memory io content memType tags in
  id = Sprintf_mem (UnixNano (now_id io))
  ∧ (∃ data, json_Marshal memory = inl data ∧ bolt.Get (db ms') id = Some data)
  ∧ (∀ key, key ≠ id → bolt.Get (db ms') key = bolt.Get (db ms) key)
  ∧ filter (λ d, d.1 = id) (bleve.docs (index ms')) = [(id, memory)]
  ∧ filter (λ d, d.1 ≠ id) (bleve.docs (index ms'))
    = filter (λ d, d.1 ≠ id) (bleve.docs (index ms))
  ∧ bleve.mapping (index ms') = bleve.mapping (index ms).
Proof.
  rewrite Add_unfold. intros Hadd memory. fold memory in Hadd.
  destruct (json_Marshal memory) as [data|] eqn:Hdata; [|by simplify_eq].
  destruct (add_commit io); [by simplify_eq|].
  destruct (add_index io); [by simplify_eq|].
  simpl in Hadd. injection Hadd as <- <-. simpl.
  split_and!; [done| | | | |done].
  - exists data. split; [done|]. apply bolt_Get_insert_key_eq.
  - intros key Hne. by apply bolt_Get_insert_key_ne.
  - apply filter_upsert_eq.
  - apply filter_upsert_ne.
Qed.

Lemma Add_stores_and_indexes_witness :
  bolt.Get (db three_tagged) "mem_3"
  = Some (Encoded (new_memory (add_at 3) "gamma" "fact" ["a"; "b"]))
  ∧ filter (λ d, d.1 = "mem_3") (bleve.docs (index three_tagged))
    = [("mem_3", new_memory (add_at 3) "gamma" "fact" ["a"; "b"])].
Proof.
  destruct (Add_stores_and_indexes encode (add_at 3)
              (add_all 1 [("alpha", "fact", ["a"]); ("beta", "fact", ["b"])]
                 empty_store)
              three_tagged "gamma" "fact" ["a"; "b"] "mem_3")
    as (_ & (data & [= <-] & Hget) & _ & Hdoc & _); [reflexivity|].
  split; [exact Hget|exact Hdoc].
Defined.

(** X2.  When [Add] returns an error, either it is a "failed to save
    memory" error and the store is exactly what it was, or it is a
    "failed to index memory" error, the index update has failed, the
    encoding of the record is in the bucket under the new id and the
    index and every other key are what they were. *)
Theorem Add_failure_states {bytes} (json_Marshal : Memory → bytes + error)
    (io : AddIO) (ms ms' : MemoryStore bytes) (content memType : string)
    (tags : list string) (err : error) :
  Add json_Marshal io ms content memType tags = (ms', inr err) →
  let memory := new_memory io content memType tags in
  (ms' = ms ∧ ∃ e, err = Errorf "failed to save memory" e)
  ∨ (index ms' = index ms
     ∧ (∃ e, err = Errorf "failed to index memory" e ∧ add_index io = Some e)
     ∧ (∃ data, json_Marshal memory = inl data
          ∧ bolt.Get (db ms') (ID memory) = Some data)
     ∧ ∀ key, key ≠ ID memory → bolt.Get (db ms') key = bolt.Get (db ms) key).
Proof.
  rewrite Add_unfold. intros Hadd memory. fold memory in Hadd.
  destruct (json_Marshal memory) as [data|e] eqn:Hdata.
  - destruct (add_commit io) as [e|] eqn:Hcommit.
    + injection Hadd as <- <-. left. split; [done|]. by exists e.
    + destruct (add_index io) as [e|] eqn:Hindex; [|by simplify_eq].
      simpl in Hadd. injection Hadd as <- <-. right. simpl.
      split_and!; [done|by exists e| |].
      * exists data. split; [done|]. apply bolt_Get_insert_key_eq.
      * intros key Hne. by apply bolt_Get_insert_key_ne.
  - injection Hadd as <- <-. left. split; [done|]. by exists e.
Qed.

Lemma Add_failure_states_witness :
  (Add encode (add_uncommitted 4 "disk full") three_tagged "delta" "fact" []).1
  = three_tagged
  ∧ index (Add encode (add_unindexed 4 "disk full") three_tagged
             "delta" "fact" []).1
    = index three_tagged.
Proof.
  split.
  - destruct (Add_failure_states encode (add_uncommitted 4 "disk full") three_tagged
                (Add encode (add_uncommitted 4 "disk full") three_tagged
                   "delta" "fact" []).1
                "delta" "fact" [] "failed to save memory: disk full")
      as [[Hsame _]|(_ & (e & _ & Hindex) & _)]; [reflexivity|exact Hsame|].
    discriminate Hindex.
  - destruct (Add_failure_states encode (add_unindexed 4 "disk full") three_tagged
                (Add encode (add_unindexed 4 "disk full") three_tagged
                   "delta" "fact" []).1
                "delta" "fact" [] "failed to index memory: disk full")
      as [[_ (e & Herr)]|(Hindex & _)]; [reflexivity| |exact Hindex].
    discriminate Herr.
Defined.

(** X3.  After a successful [Delete] the id has no record in the bucket
    and no document in the index; every other key and every other
    document is as it was. *)
Theorem Delete_removes {bytes} (io : DeleteIO) (ms ms' : MemoryStore bytes)
    (id : string) :
  Delete io ms id = (ms', None) →
  bolt.Get (db ms') id = None
  ∧ (id ∉ (bleve.docs (index ms')).*1)
  ∧ (∀ key, key ≠ id → bolt.Get (db ms') key = bolt.Get (db ms) key)
  ∧ (∀ d, d.1 ≠ id →
       (d ∈ bleve.docs (index ms') ↔ d ∈ bleve.docs (index ms)))
  ∧ bleve.mapping (index ms') = bleve.mapping (index ms).
Proof.
  rewrite Delete_unfold. destruct (delete_commit io); [done|]. simpl.
  case_decide; [done|]. destruct (delete_index io); [done|].
  intros [= <-]. simpl. split_and!; [| | | |done].
  - apply bolt_Get_Delete_eq.
  - intros ([id' d] & -> & [Hne _]%list_elem_of_filter)%list_elem_of_fmap. done.
  - intros key Hne. by apply bolt_Get_Delete_ne.
  - intros d Hd. rewrite list_elem_of_filter. tauto.
Qed.

Lemma Delete_removes_witness :
  bolt.Get (db (Delete delete_ok three_tagged "mem_2").1) "mem_2" = None
  ∧ ("mem_2" ∉ (bleve.docs (index (Delete delete_ok three_tagged "mem_2").1)).*1).
Proof.
  destruct (Delete_removes delete_ok three_tagged
              (Delete delete_ok three_tagged "mem_2").1 "mem_2")
    as (Hget & Hdoc & _); [reflexivity|].
  split; [exact Hget|exact Hdoc].
Defined.

(** X4.  When [Delete] returns an error, either the bucket transaction
    did not commit and the store is exactly what it was, or the record
    is gone from the bucket while the index is what it was: the index
    removal failed, or the id is empty, which the index refuses. *)
Theorem Delete_failure_states {bytes} (io : DeleteIO) (ms ms' : MemoryStore bytes)
    (id : string) (err : error) :
  Delete io ms id = (ms', Some err) →
  (ms' = ms
   ∧ ∃ e, delete_commit io = Some e ∧ err = Errorf "failed to delete memory" e)
  ∨ (delete_commit io = None
     ∧ bolt.Get (db ms') id = None
     ∧ (∀ key, key ≠ id → bolt.Get (db ms') key = bolt.Get (db ms) key)
     ∧ index ms' = index ms
     ∧ ∃ e, err = Errorf "failed to delete from index" e
            ∧ ((id = "" ∧ e = bleve.ErrorEmptyID)
               ∨ (id ≠ "" ∧ delete_index io = Some e))).
Proof.
  rewrite Delete_unfold. destruct (delete_commit io) as [e|].
  - intros [= <- <-]. left. split; [done|]. by exists e.
  - simpl. intros Hrun. right. split; [done|].
    assert (db ms' = bolt.Delete (db ms) id ∧ index ms' = index ms
            ∧ ∃ e, err = Errorf "failed to delete from index" e
                   ∧ ((id = "" ∧ e = bleve.ErrorEmptyID)
                      ∨ (id ≠ "" ∧ delete_index io = Some e)))
      as (-> & -> & He).
    { case_decide.
      - injection Hrun as <- <-. split_and!; [done..|].
        eexists. split; [done|]. by left.
      - destruct (delete_index io) as [e|]; [|done].
        injection Hrun as <- <-. split_and!; [done..|].
        exists e. split; [done|]. by right. }
    split_and!; [apply bolt_Get_Delete_eq| |done|done].
    intros key Hne. by apply bolt_Get_Delete_ne.
Qed.

Lemma Delete_failure_states_witness :
  bolt.Get (db (Delete (delete_unindexed "index closed") three_tagged "mem_2").1)
    "mem_2" = None
  ∧ index (Delete (delete_unindexed "index closed") three_tagged "mem_2").1
    = index three_tagged.
Proof.
  destruct (Delete_failure_states (delete_unindexed "index closed") three_tagged
              (Delete (delete_unindexed "index closed") three_tagged "mem_2").1
              "mem_2" "failed to delete from index: index closed")
    as [[_ (e & Hcommit & _)]|(_ & Hget & _ & Hindex & _)]; [reflexivity| |].
  - discriminate Hcommit.
  - split; [exact Hget|exact Hindex].
Defined.

(** X5.  Adding a record under an id that the store neither holds nor
    indexes and then deleting that id gives back the store as it was
    before the two calls. *)
Theorem Add_then_Delete_restores {bytes} (json_Marshal : Memory → bytes + error)
    (aio : AddIO) (dio : DeleteIO) (ms ms1 ms2 : MemoryStore bytes)
    (content memType : string) (tags : list string) (id : string) :
  bolt.Get (db ms) (Sprintf_mem (UnixNano (now_id aio))) = None →
  Sprintf_mem (UnixNano (now_id aio)) ∉ (bleve.docs (index ms)).*1 →
  Add json_Marshal aio ms content memType tags = (ms1, inl id) →
  Delete dio ms1 id = (ms2, None) →
  ms2 = ms.
Proof.
  intros Hget Hdoc. rewrite Add_unfold.
  set (memory := new_memory aio content memType tags).
  destruct (json_Marshal memory) as [data|]; [|done].
  destruct (add_commit aio); [done|]. destruct (add_index aio); [done|].
  cbv zeta. intros [= <- <-]. rewrite Delete_unfold.
  destruct (delete_commit dio); [done|]. cbv zeta.
  destruct (decide (ID memory = "")); [done|].
  destruct (delete_index dio); [done|].
  intros [= <-]. cbn [db index bleve.docs bleve.mapping].
  change (ID memory) with (Sprintf_mem (UnixNano (now_id aio))).
  rewrite bolt_Delete_insert_key by done. rewrite filter_upsert_ne.
  assert (filter (λ d : string * Memory, d.1 ≠ Sprintf_mem (UnixNano (now_id aio)))
            (bleve.docs (index ms)) = bleve.docs (index ms)) as ->.
  { revert Hdoc. generalize (Sprintf_mem (UnixNano (now_id aio))) as i.
    intros i. induction (bleve.docs (index ms)) as [|d l IH]; [done|].
    rewrite fmap_cons, not_elem_of_cons. intros [Hne Hl].
    rewrite filter_cons_True by done. by rewrite IH. }
  by destruct ms as [b [m l]].
Qed.

Lemma Add_then_Delete_restores_witness :
  (Delete delete_ok
     (Add encode (add_at 4) three_tagged "delta" "fact" ["a"]).1 "mem_4").1
  = three_tagged.
Proof.
  apply (Add_then_Delete_restores encode (add_at 4) delete_ok three_tagged
           (Add encode (add_at 4) three_tagged "delta" "fact" ["a"]).1
           _ "delta" "fact" ["a"] "mem_4").
  - reflexivity.
  - apply (bool_decide_unpack _). vm_compute. exact I.
  - reflexivity.
  - reflexivity.
Defined.

Lemma Operated_in_sync_aux {bytes} (json_Marshal : Memory → bytes + error)
    (ms : MemoryStore bytes) :
  Operated json_Marshal ms →
  NoDup (bleve.docs (index ms)).*1
  ∧ (∀ id, id ∈ (bleve.docs (index ms)).*1 ↔ is_Some (bolt.Get (db ms) id))
  ∧ (∀ id d, (id, d) ∈ bleve.docs (index ms) →
       ID d = id
       ∧ ∃ data, json_Marshal d = inl data ∧ bolt.Get (db ms) id = Some data).
Proof.
  induction 1 as [m|ms ms' io c ty tg id _ IH Hadd|ms ms' io id _ IH Hdel].
  - simpl. split_and!; [constructor| |by intros ?? ?%elem_of_nil].
    intros id. split; [by intros ?%elem_of_nil|by intros [? ?]].
  - destruct IH as (Hnd & Hids & Hdocs). rewrite Add_unfold in Hadd.
    set (memory := new_memory io c ty tg) in *.
    destruct (json_Marshal memory) as [data|] eqn:Hdata; [|by simplify_eq].
    destruct (add_commit io); [by simplify_eq|].
    destruct (add_index io); [by simplify_eq|].
    simpl in Hadd. injection Hadd as <- <-. simpl. split_and!.
    + rewrite fmap_app. apply NoDup_app. split_and!.
      * apply (sublist_NoDup _ (bleve.docs (index ms)).*1);
          [exact Hnd|apply fmap_sublist, sublist_filter].
      * intros x Hx Hx'. simpl in Hx'. apply list_elem_of_singleton in Hx' as ->.
        apply list_elem_of_fmap in Hx as ([x' d] & Heq & [Hne _]%list_elem_of_filter).
        simpl in *. congruence.
      * apply NoDup_singleton.
    + intros id'. rewrite ids_upsert.
      destruct (decide (id' = ID memory)) as [->|Hne].
      * rewrite bolt_Get_insert_key_eq. split; [by eexists|by right].
      * rewrite bolt_Get_insert_key_ne by done. rewrite <-Hids. tauto.
    + intros id' d [[Hd Hne]|[-> ->]]%elem_of_upsert.
      * rewrite bolt_Get_insert_key_ne by done. by apply Hdocs.
      * split; [done|]. exists data. split; [done|]. apply bolt_Get_insert_key_eq.
  - destruct IH as (Hnd & Hids & Hdocs). rewrite Delete_unfold in Hdel.
    destruct (delete_commit io); [done|]. simpl in Hdel.
    case_decide; [done|]. destruct (delete_index io); [done|].
    injection Hdel as <-. simpl. split_and!.
    + apply (sublist_NoDup _ (bleve.docs (index ms)).*1);
        [exact Hnd|apply fmap_sublist, sublist_filter].
    + intros id'. destruct (decide (id' = id)) as [->|Hne].
      * rewrite bolt_Get_Delete_eq. split; [|by intros [? ?]].
        intros ([x d] & -> & [Hx _]%list_elem_of_filter)%list_elem_of_fmap. done.
      * rewrite bolt_Get_Delete_ne by done. rewrite <-Hids, !list_elem_of_fmap.
        split.
        -- intros (x & -> & [_ Hx]%list_elem_of_filter). by exists x.
        -- intros (x & -> & Hx). exists x. split; [done|].
           by apply list_elem_of_filter.
    + intros id' d [Hne Hd]%list_elem_of_filter. simpl in Hne.
      rewrite bolt_Get_Delete_ne by done. by apply Hdocs.
Qed.

(** X6.  As long as every [Add] and [Delete] succeeds, bucket and index
    stay in step: the index holds at most one document per id, an id is
    indexed exactly when the bucket has a record under it, and the
    record under it is the encoding of the indexed document, whose [ID]
    is that id. *)
Theorem Operated_in_sync {bytes} (json_Marshal : Memory → bytes + error)
    (ms : MemoryStore bytes) :
  Operated json_Marshal ms →
  NoDup (bleve.docs (index ms)).*1
  ∧ (∀ id, id ∈ (bleve.docs (index ms)).*1 ↔ is_Some (bolt.Get (db ms) id))
  ∧ (∀ id d, (id, d) ∈ bleve.docs (index ms) →
       ID d = id
       ∧ ∃ data, json_Marshal d = inl data ∧ bolt.Get (db ms) id = Some data).
Proof. apply Operated_in_sync_aux. Qed.

Lemma Operated_in_sync_witness :
  NoDup (bleve.docs (index (Delete delete_ok three_tagged "mem_2").1)).*1
  ∧ ("mem_3" ∈ (bleve.docs (index (Delete delete_ok three_tagged "mem_2").1)).*1
     ↔ is_Some (bolt.Get (db (Delete delete_ok three_tagged "mem_2").1) "mem_3")).
Proof.
  assert (Operated encode (Delete delete_ok three_tagged "mem_2").1) as Hop.
  { apply (Operated_Delete encode three_tagged _ delete_ok "mem_2"); [|reflexivity].
    apply (Operated_Add encode
             (add_all 1 [("alpha", "fact", ["a"]); ("beta", "fact", ["b"])]
                empty_store)
             three_tagged (add_at 3) "gamma" "fact" ["a"; "b"] "mem_3");
      [|reflexivity].
    apply (Operated_Add encode
             (add_all 1 [("alpha", "fact", ["a"])] empty_store)
             _ (add_at 2) "beta" "fact" ["b"] "mem_2");
      [|reflexivity].
    apply (Operated_Add encode empty_store _ (add_at 1) "alpha" "fact" ["a"] "mem_1");
      [|reflexivity].
    apply Operated_fresh. }
  destruct (Operated_in_sync encode _ Hop) as (Hnd & Hids & _).
  split; [exact Hnd|exact (Hids "mem_3")].
Defined.

(** ** Searching, continued *)

(** X7.  Once the bucket part of a [Delete] has been committed, no
    search returns the record that was stored under the deleted id,
    whether or not the index removal went through: every record
    returned is hydrated from another key, under which it was already
    stored before the deletion. *)
Theorem Search_never_returns_deleted {bytes}
    (json_Unmarshal : bytes → Memory + error) (dio : DeleteIO) (sio : SearchIO)
    (ms : MemoryStore bytes) (id queryString : string) (tags : list string)
    (found : list Memory) (err : option error) :
  delete_commit dio = None →
  Search json_Unmarshal sio (Delete dio ms id).1 queryString tags
  = inl (found, err) →
  ∀ m, m ∈ found →
    ∃ hit data, bleve.hit_ID hit ≠ id
      ∧ bolt.Get (db ms) (bleve.hit_ID hit) = Some data
      ∧ json_Unmarshal data = inl m.
Proof.
  intros Hcommit. rewrite Search_unfold.
  destruct (search_index sio); [done|].
  destruct (search_view sio); intros [= <- <-] m; [by intros ?%elem_of_nil|].
  intros (hit & data & _ & Hget & Hdec)%elem_of_hydrate.
  assert (db (Delete dio ms id).1 = bolt.Delete (db ms) id) as Hdb.
  { rewrite Delete_unfold, Hcommit. simpl. case_decide; [done|].
    by destruct (delete_index dio). }
  rewrite Hdb in Hget. exists hit, data.
  destruct (decide (bleve.hit_ID hit = id)) as [Heq|Hne].
  - rewrite Heq, bolt_Get_Delete_eq in Hget. done.
  - by rewrite bolt_Get_Delete_ne in Hget.
Qed.

Lemma Search_never_returns_deleted_witness :
  "mem_2" ∈ (bleve.docs
               (index (Delete (delete_unindexed "index closed") three_tagged
                         "mem_2").1)).*1
  ∧ ∀ m, m ∈ [new_memory (add_at 1) "alpha" "fact" ["a"];
              new_memory (add_at 3) "gamma" "fact" ["a"; "b"]] →
      ∃ hit data, bleve.hit_ID hit ≠ "mem_2"
        ∧ bolt.Get (db three_tagged) (bleve.hit_ID hit) = Some data
        ∧ decode data = inl m.
Proof.
  split.
  - apply (bool_decide_unpack _). vm_compute. exact I.
  - apply (Search_never_returns_deleted decode (delete_unindexed "index closed")
             search_ok three_tagged "mem_2" "" [] _ None); reflexivity.
Defined.

(** X8.  A hit whose stored bytes do not decode to a record is passed
    over by [Search] like a hit without a stored record: the other hits
    are hydrated as if it had not been there and no error is
    returned. *)
Theorem Search_skips_undecodable {bytes} (json_Unmarshal : bytes → Memory + error)
    (io : SearchIO) (ms : MemoryStore bytes) (queryString : string)
    (tags : list string) (before after : list bleve.DocumentMatch)
    (hit : bleve.DocumentMatch) (data : bytes) (err : error) :
  search_index io = None → search_view io = None →
  take 100 (bleve.rank (search_tie io)
              (bleve.candidates (index ms) (build_query queryString tags)))
  = before ++ hit :: after →
  bolt.Get (db ms) (bleve.hit_ID hit) = Some data →
  json_Unmarshal data = inr err →
  Search json_Unmarshal io ms queryString tags
  = inl (hydrate json_Unmarshal (db ms) (before ++ after), None).
Proof.
  intros Hindex Hview Hhits Hget Hdec.
  rewrite Search_unfold, Hindex, Hview, Hhits, !hydrate_app. simpl.
  by rewrite Hget, Hdec.
Qed.

Lemma Search_skips_undecodable_witness :
  ∃ found, Search decode search_ok corrupt_store "" [] = inl (found, None)
    ∧ ID <$> found = ["mem_1"; "mem_3"].
Proof.
  eexists. split.
  - apply (Search_skips_undecodable decode search_ok corrupt_store "" []
             [{| bleve.hit_ID := "mem_1"; bleve.Score := 1 |}]
             [{| bleve.hit_ID := "mem_3"; bleve.Score := 1 |}]
             {| bleve.hit_ID := "mem_2"; bleve.Score := 1 |}
             (Malformed "{")
             "invalid character looking for beginning of value");
      reflexivity.
  - reflexivity.
Defined.

(** ** Start-up, continued *)

Lemma ForEach_index_record_undecodable {bytes}
    (json_Unmarshal : bytes → Memory + error) (io : StartupIO bytes)
    (b : bolt.Bucket bytes) (i : bleve.Index) (k : string) (data : bytes)
    (e : error) :
  (k, data) ∈ b → json_Unmarshal data = inr e →
  ∃ err, bolt.ForEach b (index_record json_Unmarshal io) i = inr err.
Proof.
  intros Hin Hdec. revert i. induction b as [|[k' v] b IH]; intros i.
  - by apply elem_of_nil in Hin.
  - simpl. apply elem_of_cons in Hin as [[= <- <-]|Hin].
    + unfold index_record at 1. rewrite Hdec. by eexists.
    + destruct (index_record json_Unmarshal io i k' v); [by apply IH|by eexists].
Qed.

(** X9.  When the index has to be rebuilt, a single stored value that
    does not decode makes start-up fail: [NewMemoryStore] returns the
    error "failed to index existing memories" and no store. *)
Theorem NewMemoryStore_undecodable_record_fails {bytes}
    (json_Unmarshal : bytes → Memory + error)
    (NewIndexMapping : bleve.IndexMapping) (io : StartupIO bytes)
    (dbPath : string) (found : option (bolt.Bucket bytes)) (openErr : error)
    (k : string) (data : bytes) (e : error) :
  bolt_Open io = inl found → create_bucket io = None →
  bleve_Open io = inr openErr → bleve_New io = None →
  startup_view io = None →
  (k, data) ∈ default [] found → json_Unmarshal data = inr e →
  ∃ err, NewMemoryStore json_Unmarshal NewIndexMapping io dbPath
         = inr (Errorf "failed to index existing memories" err).
Proof.
  intros Hdb Hbucket Hidx Hnew Hview Hin Hdec.
  unfold NewMemoryStore, bolt.Update.
  rewrite Hdb, Hbucket, Hidx, Hnew, Hview.
  destruct (ForEach_index_record_undecodable json_Unmarshal io _
              (bleve.New NewIndexMapping) _ _ _ Hin Hdec) as [err ->].
  by exists err.
Qed.

Lemma NewMemoryStore_undecodable_record_fails_witness :
  ∃ err, NewMemoryStore decode words_mapping index_missing_corrupt "memory.db"
         = inr (Errorf "failed to index existing memories" err).
Proof.
  apply (NewMemoryStore_undecodable_record_fails decode words_mapping
           index_missing_corrupt "memory.db" (Some (db corrupt_store))
           "cannot open index, path does not exist"
           "mem_2" (Malformed "{")
           "invalid character looking for beginning of value");
    [reflexivity..| |reflexivity].
  apply list_elem_of_In. vm_compute. right. left. reflexivity.
Defined.

(** X10.  When the index has been rebuilt at start-up from a bucket
    whose records carry their key as [ID], the store returned is in
    step: an id is indexed exactly when the bucket has a record under
    it. *)
Theorem NewMemoryStore_rebuild_in_sync {bytes}
    (json_Unmarshal : bytes → Memory + error)
    (NewIndexMapping : bleve.IndexMapping) (io : StartupIO bytes)
    (dbPath : string) (found : option (bolt.Bucket bytes)) (openErr : error)
    (ms : MemoryStore bytes) :
  bolt_Open io = inl found →
  bleve_Open io = inr openErr →
  (∀ k data m, (k, data) ∈ default [] found →
     json_Unmarshal data = inl m → ID m = k) →
  NewMemoryStore json_Unmarshal NewIndexMapping io dbPath = inl ms →
  ∀ id, id ∈ (bleve.docs (index ms)).*1 ↔ is_Some (bolt.Get (db ms) id).
Proof.
  intros Hdb Hidx Hkey. unfold NewMemoryStore, bolt.Update. rewrite Hdb, Hidx.
  destruct (create_bucket io); [done|]. destruct (bleve_New io); [done|].
  destruct (startup_view io); [done|].
  destruct (bolt.ForEach _ _ _) as [i'|err] eqn:Hrun; [|done].
  intros [= <-] id. simpl.
  apply ForEach_index_record in Hrun as (_ & _ & Hall & Hfrom). split.
  - intros ([id' d] & -> & Hd)%list_elem_of_fmap. simpl.
    apply Hfrom in Hd as [[]%elem_of_nil|(k & data & Hin & Hdec & Hid)].
    rewrite (Hkey _ _ _ Hin Hdec) in Hid. subst k.
    by eapply bolt_elem_of_Get.
  - intros [data Hget]. apply bolt_Get_elem_of in Hget.
    destruct (Hall _ _ Hget) as (m & Hdec & Hm).
    by rewrite (Hkey _ _ _ Hget Hdec) in Hm.
Qed.

Lemma NewMemoryStore_rebuild_in_sync_witness :
  ∃ ms, NewMemoryStore decode words_mapping index_missing "memory.db" = inl ms
    ∧ ∀ id, id ∈ (bleve.docs (index ms)).*1 ↔ is_Some (bolt.Get (db ms) id).
Proof.
  eexists. split; [reflexivity|].
  apply (NewMemoryStore_rebuild_in_sync decode words_mapping index_missing
           "memory.db" (Some (db three_tagged))
           "cannot open index, path does not exist");
    [reflexivity|reflexivity| |reflexivity].
  intros k data m Hin. simpl in Hin.
  assert (Forall (λ x, ∀ m, decode x.2 = inl m → ID m = x.1) (db three_tagged))
    as Hall by (repeat constructor; simpl; intros ? [= <-]; reflexivity).
  rewrite Forall_forall in Hall. exact (Hall (k, data) Hin m).
Defined.

(** ** The tool handlers *)

Lemma string_tags_elem_of (t : list Value) (s : string) :
  s ∈ string_tags t ↔ VString s ∈ t.
Proof.
  induction t as [|v t IH]; simpl.
  - split; by intros ?%elem_of_nil.
  - destruct v; rewrite !elem_of_cons, ?IH;
      (split; [intros; intuition congruence|]);
      intros [?|?]; simplify_eq; auto.
Qed.

(** X11.  The tags a lexical handler works with are the string
    elements of the "tags" array, in their order: elements that are not
    strings are dropped without an error, an array of strings is taken
    as it is, and a "tags" argument that is absent or not an array
    gives no tags. *)
Theorem request_tags_strings (args : gmap string Value) :
  (∀ t, args !! "tags" = Some (VArray t) →
     (VString <$> request_tags args) `sublist_of` t
     ∧ ∀ s, s ∈ request_tags args ↔ VString s ∈ t)
  ∧ (∀ l, args !! "tags" = Some (VArray (VString <$> l)) → request_tags args = l)
  ∧ (assert_array (args !! "tags") = None → request_tags args = []).
Proof.
  unfold request_tags. split_and!.
  - intros t ->. simpl. split; [|intros s; apply string_tags_elem_of].
    induction t as [|v t IH]; simpl; [done|].
    destruct v; try (by apply sublist_cons). by apply sublist_skip.
  - intros l ->. cbn [assert_array].
    induction l as [|s l IH]; [done|]. rewrite fmap_cons. cbn [string_tags].
    by f_equal.
  - by intros ->.
Qed.

Lemma request_tags_strings_witness :
  "b" ∈ request_tags mixed_tags_request
  ∧ ¬ (∃ s, s ∈ request_tags mixed_tags_request ∧ VString s = VNumber 7).
Proof.
  destruct (request_tags_strings mixed_tags_request) as (Hsub & _ & _).
  destruct (Hsub [VString "a"; VNumber 7; VString "b"]) as [_ Hin]; [reflexivity|].
  split.
  - apply Hin. right. right. left.
  - by intros (s & _ & [=]).
Defined.

Lemma format_memories_nonempty (i : Z) (m : Memory) (rest : list Memory) :
  ∃ s, format_memories i (m :: rest) = String (Ascii.ascii_of_nat 91) s.
Proof. eexists. reflexivity. Qed.

(** X12.  When the search succeeds, the lexical [search_memory] handler
    never answers with an error, and it answers "No matching memories
    found." exactly when the search returned no record. *)
Theorem searchTool_no_match {bytes} (json_Unmarshal : bytes → Memory + error)
    (io : SearchIO) (ms : MemoryStore bytes) (args : gmap string Value)
    (found : list Memory) :
  searchTool_results json_Unmarshal io ms args = inl (found, None) →
  IsError (searchTool json_Unmarshal io ms args) = false
  ∧ (Text (searchTool json_Unmarshal io ms args) = "No matching memories found."
     ↔ found = []).
Proof.
  intros Hrun. unfold searchTool. rewrite Hrun. simpl. split; [done|].
  destruct found as [|m rest]; [done|].
  destruct (format_memories_nonempty 0 m rest) as [s ->].
  rewrite decide_False by done. split; [|done]. intros [=].
Qed.

Lemma searchTool_no_match_witness :
  Text (searchTool decode search_ok three_tagged {[ "query" := VString "omega" ]})
  = "No matching memories found.".
Proof.
  apply (searchTool_no_match decode search_ok three_tagged
           {[ "query" := VString "omega" ]} []).
  - reflexivity.
  - reflexivity.
Defined.

(** ** The semantic variant, continued *)

(** X13.  From the reply of the embedding provider the semantic
    handlers use the first vector only: further vectors change nothing,
    and a reply without any vector makes [add_memory] panic while the
    collection stays as it is. *)
Theorem addMemoryTool_first_vector (float32 : Q → Q) (normalize : list Q → list Q)
    (io io' : Semantic.AddIO) (collection : gmap string chromem.Document)
    (args : gmap string Value) (content : string) :
  args !! "content" = Some (VString content) →
  Semantic.now io' = Semantic.now io →
  Semantic.add_embed io' = Semantic.add_embed io →
  Semantic.add_persist io' = Semantic.add_persist io →
  (Semantic.add_CreateEmbeddings io = inl [] →
     Semantic.addMemoryTool float32 normalize io collection args
     = Panic "index out of range [0] with length 0")
  ∧ (∀ e rest rest',
       Semantic.add_CreateEmbeddings io = inl (e :: rest) →
       Semantic.add_CreateEmbeddings io' = inl (e :: rest') →
       Semantic.addMemoryTool float32 normalize io' collection args
       = Semantic.addMemoryTool float32 normalize io collection args).
Proof.
  intros Hcontent Hnow Hembed Hpersist. unfold Semantic.addMemoryTool.
  rewrite Hcontent. simpl. split.
  - by intros ->.
  - intros e rest rest' -> ->. simpl. by rewrite Hnow, Hembed, Hpersist.
Qed.

Lemma addMemoryTool_first_vector_witness :
  Semantic.addMemoryTool id unit_length (no_vector 9) five_vectors
    {[ "content" := VString "alpha" ]}
  = Panic "index out of range [0] with length 0"
  ∧ Semantic.addMemoryTool id unit_length (two_vectors 9) five_vectors
      {[ "content" := VString "alpha" ]}
    = Semantic.addMemoryTool id unit_length (embed_at 9 [3; 4]%Q) five_vectors
        {[ "content" := VString "alpha" ]}.
Proof.
  split.
  - apply (addMemoryTool_first_vector id unit_length (no_vector 9) (no_vector 9)
             five_vectors {[ "content" := VString "alpha" ]} "alpha");
      reflexivity.
  - apply (addMemoryTool_first_vector id unit_length (embed_at 9 [3; 4]%Q) (two_vectors 9)
             five_vectors {[ "content" := VString "alpha" ]} "alpha")
      with (e := [3; 4]%Q) (rest := []) (rest' := [[0; 1]%Q]);
      reflexivity.
Defined.



(** X15.  The semantic [search_memory] handler asks for five results
    when "limit" is absent or not a number, and whenever the number it
    asks for is below 1 or above the number of stored documents the
    search is answered with a "search failed" error instead of fewer
    results; so a default search over fewer than five documents
    fails. *)
Theorem Semantic_search_limit_out_of_range (float32 : Q → Q)
    (similarity : list Q → list Q → Q) (Sprintf_3f : Q → string)
    (sio : Semantic.SearchIO) (collection : gmap string chromem.Document)
    (args : gmap string Value) (query : string) (e : list Q)
    (rest : list (list Q)) :
  args !! "query" = Some (VString query) →
  Semantic.search_CreateEmbeddings sio = inl (e :: rest) → e ≠ [] →
  (assert_float64 (args !! "limit") = None → Semantic.request_limit args = 5)
  ∧ (¬ (1 ≤ Semantic.request_limit args ≤ Z.of_nat (size collection)) →
     ∃ msg, Semantic.searchTool float32 similarity Sprintf_3f sio collection args
            = Return (NewToolResultError ("search failed: " +:+ msg))).
Proof.
  intros Hquery Hreply Hne. split.
  - unfold Semantic.request_limit. by intros ->.
  - intros Hrange.
    unfold Semantic.searchTool, Semantic.searchTool_results,
      Semantic.generateEmbedding.
    rewrite Hquery, Hreply. simpl. unfold chromem.QueryEmbedding.
    rewrite decide_False by (rewrite length_map; by destruct e).
    case_decide; [by eexists|].
    rewrite decide_True by lia. by eexists.
Qed.

Lemma Semantic_search_limit_out_of_range_witness :
  ∃ msg, Semantic.searchTool id dot print_Q query_vector
           (delete "mem_5" five_vectors) {[ "query" := VString "note" ]}
         = Return (NewToolResultError ("search failed: " +:+ msg)).
Proof.
  destruct (Semantic_search_limit_out_of_range id dot print_Q query_vector
              (delete "mem_5" five_vectors) {[ "query" := VString "note" ]}
              "note" [1; 0]%Q [])
    as [Hdefault Hfails]; [reflexivity|reflexivity|done|].
  apply Hfails. rewrite Hdefault by reflexivity. vm_compute.
  intros [_ Hle]. by apply Hle.
Defined.

(** ** Stored and searchable *)

Lemma hydrate_Permutation {bytes} (json_Unmarshal : bytes → Memory + error)
    (b : bolt.Bucket bytes) (l l' : list bleve.DocumentMatch) :
  l ≡ₚ l' → hydrate json_Unmarshal b l ≡ₚ hydrate json_Unmarshal b l'.
Proof.
  induction 1 as [|h l l' _ IH|h h' l|l l' l'' _ IH _ IH']; simpl.
  - done.
  - destruct (bolt.Get b (bleve.hit_ID h)) as [data|]; [|done].
    destruct (json_Unmarshal data); [|done]. by rewrite IH.
  - destruct (bolt.Get b (bleve.hit_ID h)) as [data|],
      (bolt.Get b (bleve.hit_ID h')) as [data'|]; try done.
    destruct (json_Unmarshal data), (json_Unmarshal data'); try done.
    apply Permutation_swap.
  - by rewrite IH.
Qed.

Lemma hydrate_stored_docs {bytes} (json_Unmarshal : bytes → Memory + error)
    (b : bolt.Bucket bytes) (score : Memory → Q) (l : list (string * Memory)) :
  (∀ id d, (id, d) ∈ l →
     ∃ data, bolt.Get b id = Some data ∧ json_Unmarshal data = inl d) →
  hydrate json_Unmarshal b
    (map (λ d, {| bleve.hit_ID := d.1; bleve.Score := score d.2 |})
       (filter (λ d : string * Memory, true = true) l))
  = l.*2.
Proof.
  induction l as [|[id d] l IH]; intros Hall; [done|].
  rewrite filter_cons_True by done. simpl.
  destruct (Hall id d) as (data & -> & ->); [by left|].
  f_equal. apply IH. intros id' d' ?. apply Hall. by right.
Qed.

(** X16.  In a store that only successful [Add] and [Delete] calls have
    touched and that holds at most a hundred records, a search without
    text and tags returns exactly the records added and not deleted
    since, each as it was added, provided that decoding gives back what
    was encoded. *)
Theorem Search_match_all_returns_store {bytes}
    (json_Marshal : Memory → bytes + error)
    (json_Unmarshal : bytes → Memory + error) (io : SearchIO)
    (ms : MemoryStore bytes) :
  (∀ m data, json_Marshal m = inl data → json_Unmarshal data = inl m) →
  Operated json_Marshal ms →
  (length (bleve.docs (index ms)) ≤ 100)%nat →
  search_index io = None → search_view io = None →
  ∃ found, Search json_Unmarshal io ms "" [] = inl (found, None)
    ∧ found ≡ₚ (bleve.docs (index ms)).*2
    ∧ ∀ m, m ∈ found →
        ∃ data, bolt.Get (db ms) (ID m) = Some data ∧ json_Marshal m = inl data.
Proof.
  intros Hcodec Hop Hfew Hindex Hview.
  destruct (Operated_in_sync_aux json_Marshal ms Hop) as (_ & _ & Hdocs).
  rewrite Search_unfold, Hindex, Hview. eexists. split; [done|].
  change (build_query "" []) with bleve.MatchAllQuery.
  assert (hydrate json_Unmarshal (db ms)
            (take 100 (bleve.rank (search_tie io)
                         (bleve.candidates (index ms) bleve.MatchAllQuery)))
          ≡ₚ (bleve.docs (index ms)).*2) as Hperm.
  { rewrite take_ge.
    2:{ rewrite rank_Permutation.
        rewrite <-(length_fmap bleve.hit_ID), candidates_MatchAll, length_fmap.
        done. }
    rewrite (hydrate_Permutation _ _ _ _ (rank_Permutation _ _)).
    unfold bleve.candidates. simpl. rewrite hydrate_stored_docs; [done|].
    intros id d Hd. destruct (Hdocs id d Hd) as (_ & data & Hdata & Hget).
    exists data. split; [done|]. by apply Hcodec. }
  split; [done|]. intros m Hm. rewrite Hperm in Hm.
  apply list_elem_of_fmap in Hm as ([id d] & -> & Hd). simpl.
  destruct (Hdocs id d Hd) as (-> & data & Hdata & Hget). by exists data.
Qed.

Lemma Search_match_all_returns_store_witness :
  ∃ found, Search decode search_ok three_tagged "" [] = inl (found, None)
    ∧ found ≡ₚ (bleve.docs (index three_tagged)).*2.
Proof.
  assert (Operated encode three_tagged) as Hop.
  { apply (Operated_Add encode
             (add_all 1 [("alpha", "fact", ["a"]); ("beta", "fact", ["b"])]
                empty_store)
             three_tagged (add_at 3) "gamma" "fact" ["a"; "b"] "mem_3");
      [|reflexivity].
    apply (Operated_Add encode
             (add_all 1 [("alpha", "fact", ["a"])] empty_store)
             _ (add_at 2) "beta" "fact" ["b"] "mem_2");
      [|reflexivity].
    apply (Operated_Add encode empty_store _ (add_at 1) "alpha" "fact" ["a"] "mem_1");
      [|reflexivity].
    apply Operated_fresh. }
  destruct (Search_match_all_returns_store encode decode search_ok three_tagged)
    as (found & Hrun & Hperm & _).
  - by intros m data [= <-].
  - exact Hop.
  - vm_compute. lia.
  - reflexivity.
  - reflexivity.
  - by exists found.
Defined.

Lemma hit_indexed (tie : string → Q) (i : bleve.Index) (q : bleve.Query)
    (n : nat) (hit : bleve.DocumentMatch) :
  hit ∈ take n (bleve.rank tie (bleve.candidates i q)) →
  bleve.hit_ID hit ∈ (bleve.docs i).*1.
Proof.
  intros Hhit%(subseteq_take n).
  rewrite rank_Permutation in Hhit.
  apply elem_of_candidates in Hhit as (d & Hd & _ & -> & _).
  apply list_elem_of_fmap. by exists d.
Qed.

(** X17.  After an [Add] that returned an error, no search returns the
    record it was adding, as long as its id was not indexed before:
    every record returned is hydrated from another key, under which it
    was stored before the call.  A record whose indexing failed is in
    the bucket but cannot be found. *)
Theorem Search_misses_failed_Add {bytes} (json_Marshal : Memory → bytes + error)
    (json_Unmarshal : bytes → Memory + error) (aio : AddIO) (sio : SearchIO)
    (ms : MemoryStore bytes) (content memType queryString : string)
    (tags filter_tags : list string) (err : error) (found : list Memory)
    (serr : option error) :
  (Add json_Marshal aio ms content memType tags).2 = inr err →
  Sprintf_mem (UnixNano (now_id aio)) ∉ (bleve.docs (index ms)).*1 →
  Search json_Unmarshal sio (Add json_Marshal aio ms content memType tags).1
    queryString filter_tags = inl (found, serr) →
  ∀ m, m ∈ found →
    ∃ hit data, bleve.hit_ID hit ≠ Sprintf_mem (UnixNano (now_id aio))
      ∧ bolt.Get (db ms) (bleve.hit_ID hit) = Some data
      ∧ json_Unmarshal data = inl m.
Proof.
  intros Hfail Hfresh. rewrite Search_unfold.
  destruct (search_index sio); [done|].
  destruct (search_view sio); intros [= <- <-] m; [by intros ?%elem_of_nil|].
  intros (hit & data & Hhit%hit_indexed & Hget & Hdec)%elem_of_hydrate.
  revert Hfail Hhit Hget. rewrite Add_unfold.
  set (memory := new_memory aio content memType tags).
  assert (bleve.hit_ID hit ∈ (bleve.docs (index ms)).*1 →
          bleve.hit_ID hit ≠ Sprintf_mem (UnixNano (now_id aio))) as Hne
    by (intros Hin Heq; by rewrite Heq in Hin).
  destruct (json_Marshal memory) as [stored_data|];
    [|simpl; intros _ Hhit Hget; exists hit, data; split_and!; auto].
  destruct (add_commit aio);
    [simpl; intros _ Hhit Hget; exists hit, data; split_and!; auto|].
  destruct (add_index aio); [|done]. simpl. intros _ Hhit Hget.
  exists hit, data. split_and!; [by apply Hne| |done].
  rewrite bolt_Get_insert_key_ne in Hget; [done|].
  intros Heq. by apply (Hne Hhit).
Qed.

Lemma Search_misses_failed_Add_witness :
  (Add encode (add_unindexed 4 "disk full") three_tagged "delta" "fact" ["a"]).2
  = inr "failed to index memory: disk full"
  ∧ is_Some (bolt.Get
      (db (Add encode (add_unindexed 4 "disk full") three_tagged
             "delta" "fact" ["a"]).1) "mem_4")
  ∧ ∀ m, m ∈ [new_memory (add_at 1) "alpha" "fact" ["a"];
              new_memory (add_at 2) "beta" "fact" ["b"];
              new_memory (add_at 3) "gamma" "fact" ["a"; "b"]] →
      ∃ hit data, bleve.hit_ID hit ≠ "mem_4"
        ∧ bolt.Get (db three_tagged) (bleve.hit_ID hit) = Some data
        ∧ decode data = inl m.
Proof.
  split_and!; [reflexivity|by eexists|].
  apply (Search_misses_failed_Add encode decode (add_unindexed 4 "disk full")
           search_ok three_tagged "delta" "fact" "" ["a"] []
           "failed to index memory: disk full" _ None).
  - reflexivity.
  - apply (bool_decide_unpack _). vm_compute. exact I.
  - reflexivity.
Defined.
